(** * TextAnimationLab: tokenizer, delay scheduler and preset timelines

    A shallow embedding of the timing code of the animation presets
    ([animations/*.tsx]) and the properties of their delay plans.

    Conventions of the embedding:
    - a JavaScript string is a [string] (a sequence of code units, written
      with 8-bit characters here; the code only compares units with the
      space, the comma and the three sentence marks);
    - millisecond quantities and indices are integers ([Z]); every caller
      passes integer literals, on which the float64 arithmetic of the source
      is exact;
    - the two places where the source computes with fractions (the 0.6 split
      ratio and the shimmer intensity) are written over the rationals [Q]. *)

From Stdlib Require Import ZArith QArith Qround Qabs Qminmax.
From Stdlib Require Import List String Ascii Bool Arith Lia.
From Stdlib Require Import Lqa Permutation.
Import ListNotations.

Local Open Scope Z_scope.

(* ------------------------------------------------------------------ *)
(** ** The string and array primitives the presets call                *)
(* ------------------------------------------------------------------ *)

Module JS.

(** [s.split(sep)] for a one-unit separator: always at least one piece. *)
Fixpoint split (sep : ascii) (s : string) : list string :=
  match s with
  | EmptyString => [EmptyString]
  | String c rest =>
      if Ascii.eqb c sep then EmptyString :: split sep rest
      else match split sep rest with
           | w :: ws => String c w :: ws
           | [] => [String c EmptyString]
           end
  end.

(** [s.split('')]: one piece per code unit, none for the empty string. *)
Fixpoint split_units (s : string) : list string :=
  match s with
  | EmptyString => []
  | String c rest => String c EmptyString :: split_units rest
  end.

(** [s.slice(-1)]: the last code unit as a string, or [''] when [s] is empty. *)
Fixpoint slice_last (s : string) : string :=
  match s with
  | EmptyString => EmptyString
  | String c EmptyString => String c EmptyString
  | String _ rest => slice_last rest
  end.

(** [s.slice(0, n)]: the first [n] units, all of [s] when it is shorter. *)
Definition slice_to (s : string) (n : nat) : string := String.substring 0 n s.

(** [hay.includes(needle)]: substring search; the empty needle is found. *)
Definition includes (hay needle : string) : bool :=
  match String.index 0 needle hay with
  | Some _ => true
  | None => false
  end.

(** [s[i]]: the unit at [i] as a string ([undefined] is not needed: the
    callers index inside the string). *)
Definition char_at (s : string) (i : nat) : string :=
  match String.get i s with
  | Some c => String c EmptyString
  | None => EmptyString
  end.

(** [xs.map((x, i) => f x i)]. *)
Fixpoint mapi_from {A B : Type} (f : A -> nat -> B) (i : nat) (xs : list A)
  : list B :=
  match xs with
  | [] => []
  | x :: rest => f x i :: mapi_from f (S i) rest
  end.

Definition mapi {A B : Type} (f : A -> nat -> B) (xs : list A) : list B :=
  mapi_from f 0 xs.

End JS.

(* ------------------------------------------------------------------ *)
(** ** Config                                                          *)
(* ------------------------------------------------------------------ *)

(** The timing fields of the [CONFIG] block at the top of every preset. *)
Record Config : Type := {
  punctPauseLong : Z;
  punctPauseShort : Z
}.

(* ------------------------------------------------------------------ *)
(** ** Helpers (the same text in every word-level preset)              *)
(* ------------------------------------------------------------------ *)

Definition splitWords (text : string) : list string :=
  filter (fun w => (0 <? String.length w)%nat) (JS.split " "%char text).

Definition splitChars (text : string) : list string :=
  JS.split_units text.

Section Scheduler.

(** The README invites editing [CONFIG]; the schedulers read it as a free
    constant, so they are stated once for any block. *)
Variable CONFIG : Config.

(** The extra pause the loop adds after a word whose last unit is [last]. *)
Definition pauseAfter (last : string) : Z :=
  if JS.includes ".!?" last then punctPauseLong CONFIG
  else if String.eqb last "," then punctPauseShort CONFIG
  else 0.

(** One iteration of the [for] loop of [computeWordDelays], on the pair of
    its two locals [(delays, cumulative)]. *)
Definition wordDelaysBody (staggerMs : Z) (st : list Z * Z) (word : string)
  : list Z * Z :=
  let '(delays, cumulative) := st in
  let delays := delays ++ [cumulative] in
  let cumulative := cumulative + staggerMs in
  let last := JS.slice_last word in
  let cumulative :=
    if JS.includes ".!?" last then cumulative + punctPauseLong CONFIG
    else if String.eqb last "," then cumulative + punctPauseShort CONFIG
    else cumulative in
  (delays, cumulative).

Definition computeWordDelays (words : list string) (staggerMs : Z)
  (punctDelay : bool) : list Z :=
  if negb punctDelay then JS.mapi (fun _ i => Z.of_nat i * staggerMs) words
  else fst (fold_left (wordDelaysBody staggerMs) words ([], 0)).

(** [computeCharDelays] of the character-level presets: the same loop, the
    pause decided by the character itself. *)
Definition charDelaysBody (staggerMs : Z) (st : list Z * Z) (ch : string)
  : list Z * Z :=
  let '(delays, cumulative) := st in
  let delays := delays ++ [cumulative] in
  let cumulative := cumulative + staggerMs in
  let cumulative :=
    if JS.includes ".!?" ch then cumulative + punctPauseLong CONFIG
    else if String.eqb ch "," then cumulative + punctPauseShort CONFIG
    else cumulative in
  (delays, cumulative).

Definition computeCharDelays (chars : list string) (staggerMs : Z)
  (punctDelay : bool) : list Z :=
  if negb punctDelay then JS.mapi (fun _ i => Z.of_nat i * staggerMs) chars
  else fst (fold_left (charDelaysBody staggerMs) chars ([], 0)).

(** Split Timing: [Math.ceil(words.length * 0.6)] and the re-based second
    group. *)
Definition splitIndex (count : nat) : nat :=
  Z.to_nat (Qceiling (inject_Z (Z.of_nat count) * (6 # 10))).

Definition computeSplitDelays (words : list string) (pDelay : bool) : list Z :=
  let splitAt := splitIndex (List.length words) in
  let group1 := firstn splitAt words in
  let group2 := skipn splitAt words in
  let g1Delays := computeWordDelays group1 100 pDelay in
  let g2Delays := computeWordDelays group2 100 pDelay in
  let g1End :=
    if (0 <? List.length g1Delays)%nat
    then nth (List.length g1Delays - 1) g1Delays 0 + 100
    else 0 in
  g1Delays ++ map (fun d => d + g1End + 400) g2Delays.

End Scheduler.

(** The block as shipped. *)
Definition CONFIG : Config :=
  {| punctPauseLong := 300; punctPauseShort := 150 |}.

(* ------------------------------------------------------------------ *)
(** ** Animation descriptors (the part of the animation library used)  *)
(* ------------------------------------------------------------------ *)

Module Reanimated.

(** What is assigned to a shared value.  Easing curves shape the values in
    between and play no part in when a segment starts or ends. *)
Inductive Animation : Type :=
| withTiming (toValue : Z) (duration : Z)
| withDelay (delayMs : Z) (animation : Animation)
| withSequence (first second : Animation).

(** Milliseconds from the assignment to the first moving frame. *)
Fixpoint startsAt (a : Animation) : Z :=
  match a with
  | withTiming _ _ => 0
  | withDelay d a' => d + startsAt a'
  | withSequence a1 _ => startsAt a1
  end.

(** Milliseconds from the assignment to the last frame. *)
Fixpoint endsAt (a : Animation) : Z :=
  match a with
  | withTiming _ duration => duration
  | withDelay d a' => d + endsAt a'
  | withSequence a1 a2 => endsAt a1 + endsAt a2
  end.

End Reanimated.

(* ------------------------------------------------------------------ *)
(** ** Skew Pop                                                        *)
(* ------------------------------------------------------------------ *)

Module SkewPop.
Import Reanimated.

Record SkewPopWordProps : Type := {
  word : string;
  delay : Z;
  isPlaying : bool;
  isEmphasis : bool
}.

(** The three shared values of a word after its effect has run: the
    animation assigned to each, [None] when it is only set to its rest
    value. *)
Record Tracks : Type := {
  opacity : option Animation;
  skewX : option Animation;
  colorProgress : option Animation
}.

Definition SkewPopWord (p : SkewPopWordProps) : Tracks :=
  if isPlaying p then
    {| opacity := Some (withDelay (delay p) (withTiming 1 300));
       skewX :=
         if isEmphasis p
         then Some (withDelay 600
                      (withSequence (withTiming (-12) 200) (withTiming 0 400)))
         else None;
       colorProgress :=
         if isEmphasis p then Some (withDelay 600 (withTiming 1 400))
         else None |}
  else {| opacity := None; skewX := None; colorProgress := None |}.

Definition emphasisIndex (words : list string) : Z :=
  Z.min 2 (Z.of_nat (List.length words) - 1).

(** The component; [punctuationDelay] is [true] when the caller omits it. *)
Definition SkewPop (cfg : Config) (text : string) (playing : bool)
  (punctuationDelay : bool) : list SkewPopWordProps :=
  let words := splitWords text in
  let delays := computeWordDelays cfg words 80 punctuationDelay in
  JS.mapi (fun w i =>
             {| word := w;
                delay := nth i delays 0;
                isPlaying := playing;
                isEmphasis := Z.of_nat i =? emphasisIndex words |})
          words.

(** When the base reveal (the opacity track) of a word is complete, and
    when each emphasis track starts to move. *)
Definition revealEnd (t : Tracks) : option Z := option_map endsAt (opacity t).
Definition skewStart (t : Tracks) : option Z := option_map startsAt (skewX t).
Definition colorStart (t : Tracks) : option Z :=
  option_map startsAt (colorProgress t).

(** The emphasis of a word does not start before its reveal is complete. *)
Definition emphasisAfterReveal (t : Tracks) : bool :=
  match revealEnd t with
  | None => true
  | Some e =>
      match skewStart t, colorStart t with
      | Some s, Some c => (e <=? s) && (e <=? c)
      | Some s, None => e <=? s
      | None, Some c => e <=? c
      | None, None => true
      end
  end.

End SkewPop.

(* ------------------------------------------------------------------ *)
(** ** Shimmer intensity                                               *)
(* ------------------------------------------------------------------ *)

Module Shimmer.

(** [ShimmerWord]: the derived value [intensity]. *)
Definition wordIntensity (shimmerPos : Q) (index : nat) : Q :=
  let dist := Qabs (shimmerPos - inject_Z (Z.of_nat index)) in
  Qmax 0 (1 - dist * (8 # 10)).

(** [ShimmerChar]: [charPos] and the derived value [intensity]. *)
Definition charPos (index totalChars : nat) : Q :=
  if (0 <? totalChars)%nat
  then inject_Z (Z.of_nat index) / (inject_Z (Z.of_nat totalChars) / 4)
  else 0.

Definition charIntensity (shimmerPos : Q) (index totalChars : nat) : Q :=
  let dist := Qabs (shimmerPos - charPos index totalChars) in
  Qmax 0 (1 - dist * (6 # 10)).

(** The formula in the words of the specification. *)
Definition intensityFormula (position tokenCoordinate falloff : Q) : Q :=
  Qmax 0 (1 - Qabs (position - tokenCoordinate) * falloff).

End Shimmer.

(* ------------------------------------------------------------------ *)
(** ** Typewriter                                                      *)
(* ------------------------------------------------------------------ *)

Module Typewriter.

Record Props : Type := {
  text : string;
  isPlaying : bool;
  punctuationDelay : bool
}.

(** The variables one run of the typing effect closes over; [index] is the
    [let] that [typeNext] increments. *)
Record Env : Type := {
  envText : string;
  envPunctuationDelay : bool;
  index : nat
}.

(** A timeout the host holds: its id, its delay, and the environment of the
    [typeNext] closure it will call. *)
Record Timer : Type := {
  timerId : nat;
  timerDelay : Z;
  timerEnv : nat
}.

Record State : Type := {
  props : Props;              (* the props of the last render *)
  effectDue : bool;           (* rendered, typing effect not run yet *)
  visibleChars : nat;         (* useState(0) *)
  timeoutRef : option nat;    (* useRef(null): the id stored last *)
  hasCleanup : bool;          (* the last effect run returned its cleanup *)
  envs : list Env;            (* closure environments, by creation order *)
  timers : list Timer;        (* host: timeouts not yet fired or cleared *)
  nextTimerId : nat           (* host: the next id handed out *)
}.

Definition setVisibleChars (n : nat) (s : State) : State :=
  {| props := props s; effectDue := effectDue s; visibleChars := n;
     timeoutRef := timeoutRef s; hasCleanup := hasCleanup s;
     envs := envs s; timers := timers s; nextTimerId := nextTimerId s |}.

Definition setTimeoutRef (r : option nat) (s : State) : State :=
  {| props := props s; effectDue := effectDue s;
     visibleChars := visibleChars s;
     timeoutRef := r; hasCleanup := hasCleanup s;
     envs := envs s; timers := timers s; nextTimerId := nextTimerId s |}.

Definition setHasCleanup (b : bool) (s : State) : State :=
  {| props := props s; effectDue := effectDue s;
     visibleChars := visibleChars s;
     timeoutRef := timeoutRef s; hasCleanup := b;
     envs := envs s; timers := timers s; nextTimerId := nextTimerId s |}.

Definition setEnvs (es : list Env) (s : State) : State :=
  {| props := props s; effectDue := effectDue s;
     visibleChars := visibleChars s;
     timeoutRef := timeoutRef s; hasCleanup := hasCleanup s;
     envs := es; timers := timers s; nextTimerId := nextTimerId s |}.

Definition setTimers (ts : list Timer) (s : State) : State :=
  {| props := props s; effectDue := effectDue s;
     visibleChars := visibleChars s;
     timeoutRef := timeoutRef s; hasCleanup := hasCleanup s;
     envs := envs s; timers := ts; nextTimerId := nextTimerId s |}.

(** [setTimeout(typeNext, delay)] for the closure over environment [k]:
    the host queues the timer and returns a fresh id. *)
Definition setTimeout (k : nat) (delayMs : Z) (s : State) : nat * State :=
  let id := nextTimerId s in
  (id,
   {| props := props s; effectDue := effectDue s;
      visibleChars := visibleChars s;
      timeoutRef := timeoutRef s; hasCleanup := hasCleanup s;
      envs := envs s;
      timers := timers s ++ [{| timerId := id; timerDelay := delayMs;
                                timerEnv := k |}];
      nextTimerId := S id |}).

(** [clearTimeout(id)]: nothing happens when [id] is not pending. *)
Definition clearTimeout (id : nat) (s : State) : State :=
  setTimers (filter (fun t => negb (timerId t =? id)%nat) (timers s)) s.

(** [if (timeoutRef.current) { clearTimeout(...); timeoutRef.current = null }],
    the opening of the effect and the whole of its cleanup.  The host never
    hands out the id 0, so the test is the test for null. *)
Definition clearPending (s : State) : State :=
  match timeoutRef s with
  | Some id => setTimeoutRef None (clearTimeout id s)
  | None => s
  end.

Fixpoint setNth {A : Type} (k : nat) (x : A) (l : list A) {struct l}
  : list A :=
  match l with
  | [] => []
  | y :: rest =>
      match k with
      | O => x :: rest
      | S k' => y :: setNth k' x rest
      end
  end.

(** The extra delay after the character just typed. *)
Definition typedPause (cfg : Config) (justTyped : string) : Z :=
  if JS.includes ".!?" justTyped then punctPauseLong cfg
  else if String.eqb justTyped "," then punctPauseShort cfg
  else 0.

(** [typeNext], called by the host for a timer of environment [k]. *)
Definition typeNext (cfg : Config) (k : nat) (s : State) : State :=
  match nth_error (envs s) k with
  | None => s
  | Some e =>
      if (String.length (envText e) <=? index e)%nat then s
      else
        let index' := S (index e) in
        let e' := {| envText := envText e;
                     envPunctuationDelay := envPunctuationDelay e;
                     index := index' |} in
        let s := setVisibleChars index' (setEnvs (setNth k e' (envs s)) s) in
        if (String.length (envText e) <=? index')%nat then s
        else
          let delay :=
            if envPunctuationDelay e
            then 80 + typedPause cfg (JS.char_at (envText e) (index' - 1))
            else 80 in
          let '(id, s) := setTimeout k delay s in
          setTimeoutRef (Some id) s
  end.

(** The body of the typing effect, run with the props of the last render. *)
Definition typingEffect (s : State) : State :=
  let s := clearPending s in
  if negb (isPlaying (props s)) then
    setHasCleanup false (setVisibleChars 0 s)
  else
    let s := setVisibleChars 0 s in
    let k := List.length (envs s) in
    let s := setEnvs (envs s ++ [{| envText := text (props s);
                                    envPunctuationDelay :=
                                      punctuationDelay (props s);
                                    index := 0 |}]) s in
    let '(id, s) := setTimeout k 80 s in
    setHasCleanup true (setTimeoutRef (Some id) s).

(** A re-run of the effect: the cleanup of the previous run, if it returned
    one, then the body. *)
Definition runEffect (s : State) : State :=
  let s := if hasCleanup s then clearPending s else s in
  let s := typingEffect s in
  {| props := props s; effectDue := false; visibleChars := visibleChars s;
     timeoutRef := timeoutRef s; hasCleanup := hasCleanup s;
     envs := envs s; timers := timers s; nextTimerId := nextTimerId s |}.

(** A render with new props; the effect is then due (the host skips it
    when none of its three dependencies changed: running it nevertheless
    only adds behaviours). *)
Definition render (p : Props) (s : State) : State :=
  {| props := p; effectDue := true; visibleChars := visibleChars s;
     timeoutRef := timeoutRef s; hasCleanup := hasCleanup s;
     envs := envs s; timers := timers s; nextTimerId := nextTimerId s |}.

(** What the host may do next. *)
Inductive Event : Type :=
| Render (p : Props)
| RunEffect
| Fire (id : nat).

Definition step (cfg : Config) (ev : Event) (s : State) : option State :=
  match ev with
  | Render p => Some (render p s)
  | RunEffect => if effectDue s then Some (runEffect s) else None
  | Fire id =>
      match find (fun t => (timerId t =? id)%nat) (timers s) with
      | Some t => Some (typeNext cfg (timerEnv t) (clearTimeout id s))
      | None => None
      end
  end.

Fixpoint run (cfg : Config) (evs : list Event) (s : State) : option State :=
  match evs with
  | [] => Some s
  | ev :: rest =>
      match step cfg ev s with
      | Some s' => run cfg rest s'
      | None => None
      end
  end.

(** The first render: timer ids start at 1, as the host's do. *)
Definition mount (p : Props) : State :=
  {| props := p; effectDue := true; visibleChars := 0;
     timeoutRef := None; hasCleanup := false;
     envs := []; timers := []; nextTimerId := 1 |}.

(** [<Text>{text.slice(0, visibleChars)}</Text>]. *)
Definition rendered (s : State) : string :=
  JS.slice_to (text (props s)) (visibleChars s).

End Typewriter.

(* ------------------------------------------------------------------ *)
(** ** Rendering of a row of words                                     *)
(* ------------------------------------------------------------------ *)

(** Every word component renders [{word}{' '}]; a row is their
    concatenation. *)
Definition renderRow (words : list string) : string :=
  String.concat EmptyString (map (fun w => (w ++ " ")%string) words).

(* ------------------------------------------------------------------ *)
(** ** Definitions that follow the specification's words               *)
(* ------------------------------------------------------------------ *)

(** The text with its spaces collapsed: one space between consecutive
    words, none before the first or after the last.  [started]: a word has
    been copied; [owed]: a space is to be written before the next word. *)
Fixpoint collapseScan (started owed : bool) (s : string) : string :=
  match s with
  | EmptyString => EmptyString
  | String c rest =>
      if Ascii.eqb c " " then collapseScan started started rest
      else if owed then String " " (String c (collapseScan true false rest))
           else String c (collapseScan true false rest)
  end.

Definition collapseSpaces (s : string) : string := collapseScan false false s.

(** The scheduler's algorithm with the two punctuation steps left out:
    assign the running offset, then advance it by the stagger. *)
Definition cumulativePlain (words : list string) (staggerMs : Z) : list Z :=
  fst (fold_left
         (fun (st : list Z * Z) (_ : string) =>
            (fst st ++ [snd st], snd st + staggerMs))
         words ([], 0)).

(** The pauses triggered by the tokens before position [i]. *)
Definition pausesBefore (cfg : Config) (words : list string) (i : nat) : Z :=
  fold_right Z.add 0
    (map (fun w => pauseAfter cfg (JS.slice_last w)) (firstn i words)).

(** Adjacent delays never decrease and differ by at least the stagger. *)
Definition staggered (staggerMs : Z) (delays : list Z) : Prop :=
  forall i a b,
    nth_error delays i = Some a ->
    nth_error delays (S i) = Some b ->
    a <= b /\ b - a >= staggerMs.

(** The same, in a form that follows the list: each adjacent pair in turn. *)
Fixpoint chain (staggerMs : Z) (delays : list Z) : Prop :=
  match delays with
  | a :: (b :: _) as rest => a <= b /\ b - a >= staggerMs /\ chain staggerMs rest
  | _ => True
  end.

(** The delays the loop of [computeWordDelays] pushes when it is entered
    with the running offset [cumulative]. *)
Fixpoint offsetsFrom (cfg : Config) (staggerMs cumulative : Z)
  (words : list string) : list Z :=
  match words with
  | [] => []
  | w :: rest =>
      cumulative ::
      offsetsFrom cfg staggerMs
        (cumulative + staggerMs + pauseAfter cfg (JS.slice_last w)) rest
  end.

(** The environment of the effect run in progress: the one created last. *)
Definition liveEnv (s : Typewriter.State) : option Typewriter.Env :=
  nth_error (Typewriter.envs s) (List.length (Typewriter.envs s) - 1).

(** The text of the play cycle in progress: the one the last playing
    effect run closed over; the current text when no cycle is running. *)
Definition cycleText (s : Typewriter.State) : string :=
  if Typewriter.hasCleanup s then
    match liveEnv s with
    | Some e => Typewriter.envText e
    | None => Typewriter.text (Typewriter.props s)
    end
  else Typewriter.text (Typewriter.props s).

(** What every reachable state of the typewriter satisfies: a pending
    timer is the one [timeoutRef] names and belongs to the live
    environment; while a cleanup is registered the count is the live
    [index], inside the text; otherwise nothing is pending and nothing is
    visible. *)
Definition typingInvariant (s : Typewriter.State) : Prop :=
  (forall t, In t (Typewriter.timers s) ->
             Typewriter.timeoutRef s = Some (Typewriter.timerId t)
             /\ Typewriter.timerEnv t = (List.length (Typewriter.envs s) - 1)%nat
             /\ Typewriter.hasCleanup s = true)
  /\ if Typewriter.hasCleanup s then
       exists e,
         liveEnv s = Some e
         /\ Typewriter.visibleChars s = Typewriter.index e
         /\ (Typewriter.index e <= String.length (Typewriter.envText e))%nat
         /\ (Typewriter.effectDue s = false ->
             Typewriter.envText e = Typewriter.text (Typewriter.props s))
         /\ (Typewriter.timers s <> [] ->
             (Typewriter.index e < String.length (Typewriter.envText e))%nat
             \/ String.length (Typewriter.envText e) = 0%nat)
     else Typewriter.timers s = [] /\ Typewriter.visibleChars s = 0%nat.

(* ------------------------------------------------------------------ *)
(** ** Soft Fade: the crescendo                                        *)
(* ------------------------------------------------------------------ *)

Module SoftFade.

(** The inner loop of [computeCharCrescendo]: for [j] from [groupStart] to
    [i], [intensities[j] = (j - groupStart + 1) / groupSize].  Every [j] is
    inside the array, which is all the assignment is defined for here. *)
Definition fillGroup (groupStart i : nat) (intensities : list Q) : list Q :=
  let groupSize := (i - groupStart + 1)%nat in
  fold_left
    (fun acc j =>
       Typewriter.setNth j
         (inject_Z (Z.of_nat (j - groupStart + 1))
          / inject_Z (Z.of_nat groupSize))%Q
         acc)
    (seq groupStart (i + 1 - groupStart)) intensities.

(** One turn of the outer loop, on its locals [(intensities, groupStart)],
    at index [i] with [chars[i] = ch]; [count] is [chars.length]. *)
Definition crescendoBody (count : nat) (st : list Q * nat) (ich : nat * string)
  : list Q * nat :=
  let '(intensities, groupStart) := st in
  let '(i, ch) := ich in
  if JS.includes ".!?" ch || (i =? count - 1)%nat
  then (fillGroup groupStart i intensities, S i)
  else (intensities, groupStart).

Definition computeCharCrescendo (chars : list string) : list Q :=
  let count := List.length chars in
  fst (fold_left (crescendoBody count) (combine (seq 0 count) chars)
         (repeat 0%Q count, 0%nat)).

(** [SoftFadeChar]: [peakScale = 1 + intensity * 0.4]. *)
Definition peakScale (intensity : Q) : Q := (1 + intensity * (4 # 10))%Q.

End SoftFade.

(* ------------------------------------------------------------------ *)
(** ** The showcase: saved order and likes                             *)
(* ------------------------------------------------------------------ *)

Module Showcase.

(** The component an entry shows; only its identity matters here. *)
Inductive Preset : Type :=
| SoftFadePreset | LineSlidePreset | ScaleFadePreset | BlurRevealPreset
| SplitTimingPreset | SkewPopPreset | WordShimmerPreset | LetterShimmerPreset
| SlamInPreset | RapidFirePreset | ElasticSnapPreset | TypewriterPreset.

Record AnimationEntry : Type := {
  id : string;
  label : string;
  defaultText : string;
  Component : Preset
}.

(** A JavaScript [Map] with string keys: the entries in insertion order;
    [set] on a present key replaces the value where the key stands. *)
Fixpoint mapSet {V : Type} (k : string) (v : V) (m : list (string * V))
  : list (string * V) :=
  match m with
  | [] => [(k, v)]
  | (k', v') :: rest =>
      if String.eqb k' k then (k, v) :: rest else (k', v') :: mapSet k v rest
  end.

Fixpoint mapGet {V : Type} (k : string) (m : list (string * V)) : option V :=
  match m with
  | [] => None
  | (k', v) :: rest => if String.eqb k' k then Some v else mapGet k rest
  end.

(** [new Map(pairs)]. *)
Definition mapOf {V : Type} (pairs : list (string * V)) : list (string * V) :=
  fold_left (fun m kv => mapSet (fst kv) (snd kv) m) pairs [].

(** A JavaScript [Set] of strings: its members in insertion order. *)
Definition setHas (x : string) (s : list string) : bool :=
  existsb (String.eqb x) s.

Definition setAdd (x : string) (s : list string) : list string :=
  if setHas x s then s else s ++ [x].

Definition setDelete (x : string) (s : list string) : list string :=
  filter (fun y => negb (String.eqb x y)) s.

(** [new Set(array)]. *)
Definition setOf (xs : list string) : list string :=
  fold_left (fun s x => setAdd x s) xs [].

(** [.filter(Boolean)] on looked-up entries: the [undefined] ones go. *)
Fixpoint filterBoolean {A : Type} (xs : list (option A)) : list A :=
  match xs with
  | [] => []
  | Some a :: rest => a :: filterBoolean rest
  | None :: rest => filterBoolean rest
  end.

Section Registry.

Variable ANIMATIONS : list AnimationEntry.

(** What the loader does with the parsed list of saved ids before it calls
    [setOrderedAnimations]. *)
Definition restoreOrder (ids : list string) : list AnimationEntry :=
  let byId := mapOf (map (fun a => (id a, a)) ANIMATIONS) in
  let sorted := filterBoolean (map (fun i => mapGet i byId) ids) in
  let savedSet := setOf ids in
  fold_left
    (fun sorted a =>
       if negb (setHas (id a) savedSet) then sorted ++ [a] else sorted)
    ANIMATIONS sorted.

End Registry.

(** The list [saveOrder] writes: [list.map(a => a.id)]. *)
Definition saveOrder (entries : list AnimationEntry) : list string :=
  map id entries.

(** The updater of [handleToggleLike]. *)
Definition toggleLike (x : string) (prev : list string) : list string :=
  let next := setOf prev in
  if setHas x next then setDelete x next else setAdd x next.

(** [const text = customText || entry.defaultText]. *)
Definition shownText (customText : string) (entry : AnimationEntry) : string :=
  if (String.length customText =? 0)%nat then defaultText entry else customText.

Definition MAX_CHARS : nat := 26.

(** [onChangeText]: [setCustomText(t.slice(0, MAX_CHARS))]. *)
Definition onChangeText (t : string) : string := JS.slice_to t MAX_CHARS.

(** The registry as shipped. *)
Definition ANIMATIONS : list AnimationEntry :=
  [ {| id := "soft-fade"; label := "Soft Fade";
       defaultText := "Words pop into place"; Component := SoftFadePreset |};
    {| id := "line-slide"; label := "Line Slide";
       defaultText := "Elegant motion creates focus";
       Component := LineSlidePreset |};
    {| id := "scale-fade"; label := "Scale Fade";
       defaultText := "Grow from nothing gently";
       Component := ScaleFadePreset |};
    {| id := "blur-reveal"; label := "Blur Reveal";
       defaultText := "Clarity unfolds with patience";
       Component := BlurRevealPreset |};
    {| id := "split-timing"; label := "Split Timing";
       defaultText := "Rhythm defines how we read";
       Component := SplitTimingPreset |};
    {| id := "word-emphasis"; label := "Skew Pop";
       defaultText := "Make the important stand";
       Component := SkewPopPreset |};
    {| id := "shimmer"; label := "Word Shimmer";
       defaultText := "Light sweeps across surface";
       Component := WordShimmerPreset |};
    {| id := "shimmer-letters"; label := "Letter Shimmer";
       defaultText := "Light sweeps across surface";
       Component := LetterShimmerPreset |};
    {| id := "slam-in"; label := "Slam In";
       defaultText := "Crash through the silence";
       Component := SlamInPreset |};
    {| id := "rapid-fire"; label := "Rapid Fire";
       defaultText := "Speed reshapes perception";
       Component := RapidFirePreset |};
    {| id := "elastic-snap"; label := "Elastic Snap";
       defaultText := "Bounce into the scene";
       Component := ElasticSnapPreset |};
    {| id := "typewriter"; label := "Typewriter";
       defaultText := "Every letter has weight";
       Component := TypewriterPreset |} ].

End Showcase.

(** [filteredAnimations]: the liked entries when the filter is on. *)
Definition filteredAnimations (filterLiked : bool) (likes : list string)
  (orderedAnimations : list Showcase.AnimationEntry)
  : list Showcase.AnimationEntry :=
  if filterLiked
  then filter (fun a => Showcase.setHas (Showcase.id a) likes)
         orderedAnimations
  else orderedAnimations.

(** [indexMap]: [filteredAnimations.forEach((a, i) => map.set(a.id, i))]. *)
Definition indexMap (shown : list Showcase.AnimationEntry)
  : list (string * nat) :=
  fold_left
    (fun m ia => Showcase.mapSet (Showcase.id (snd ia)) (fst ia) m)
    (combine (seq 0 (List.length shown)) shown) [].

(** The [number] prop of [renderItem]:
    [(indexMap.get(item.id) ?? 0) + 1]. *)
Definition displayNumber (shown : list Showcase.AnimationEntry)
  (item : Showcase.AnimationEntry) : nat :=
  match Showcase.mapGet (Showcase.id item) (indexMap shown) with
  | Some index => index + 1
  | None => 0 + 1
  end.

(* ------------------------------------------------------------------ *)
(** ** More about the typewriter's timers                              *)
(* ------------------------------------------------------------------ *)

(** The delay [typeNext] (or, before the first character, the effect)
    passes to [setTimeout], read off the live environment. *)
Definition expectedDelay (cfg : Config) (e : Typewriter.Env) : Z :=
  if (Typewriter.index e =? 0)%nat then 80
  else if Typewriter.envPunctuationDelay e
       then 80 + Typewriter.typedPause cfg
                   (JS.char_at (Typewriter.envText e) (Typewriter.index e - 1))
       else 80.

(** At most one timeout is pending and its delay is the expected one; once
    the effect has run, a cleanup is registered exactly while playing and
    the live environment carries the current punctuation flag. *)
Definition timerInvariant (cfg : Config) (s : Typewriter.State) : Prop :=
  (List.length (Typewriter.timers s) <= 1)%nat
  /\ (forall t, In t (Typewriter.timers s) ->
                exists e, liveEnv s = Some e
                          /\ Typewriter.timerDelay t = expectedDelay cfg e)
  /\ (Typewriter.effectDue s = false ->
      Typewriter.hasCleanup s
      = Typewriter.isPlaying (Typewriter.props s)
      /\ (Typewriter.hasCleanup s = true ->
          exists e, liveEnv s = Some e
                    /\ Typewriter.envPunctuationDelay e
                       = Typewriter.punctuationDelay (Typewriter.props s))).

(** A word as the tokenizer yields them: not empty, no space inside. *)
Definition isWord (w : string) : Prop :=
  w <> EmptyString /\ ~ In " "%char (list_ascii_of_string w).

(** In [computeCharCrescendo], index [j] closes a group: it holds a
    sentence mark, or it is the last index. *)
Definition crescendoCloses (chars : list string) (j : nat) : bool :=
  match nth_error chars j with
  | Some ch => JS.includes ".!?" ch || (j =? List.length chars - 1)%nat
  | None => false
  end.

(** What holds of the locals [(intensities, groupStart)] of that loop when
    it is about to look at index [k]: the closed groups are filled with
    values in (0, 1], with 1 where a group closes, and no index of the
    open group closes one. *)
Definition crescendoInvariant (chars : list string) (k : nat)
  (st : list Q * nat) : Prop :=
  List.length (fst st) = List.length chars
  /\ (snd st <= k)%nat
  /\ (forall j, (j < snd st)%nat ->
                exists q, nth_error (fst st) j = Some q
                          /\ (0 < q)%Q /\ (q <= 1)%Q
                          /\ (crescendoCloses chars j = true -> (q == 1)%Q))
  /\ (forall j, (snd st <= j < k)%nat -> crescendoCloses chars j = false).

(* ================================================================== *)
(** * Properties                                                       *)
(* ================================================================== *)

(* ------------------------------------------------------------------ *)
(** ** Array helpers                                                   *)
(* ------------------------------------------------------------------ *)

Lemma mapi_from_length {A B : Type} (f : A -> nat -> B) (xs : list A) :
  forall i, List.length (JS.mapi_from f i xs) = List.length xs.
Proof.
  induction xs as [|x xs IH]; intros i; simpl; [reflexivity|].
  now rewrite IH.
Qed.

Lemma mapi_from_ext {A B : Type} (f g : A -> nat -> B) (xs : list A) :
  forall i,
    (forall x j, f x j = g x j) ->
    JS.mapi_from f i xs = JS.mapi_from g i xs.
Proof.
  induction xs as [|x xs IH]; intros i Hfg; simpl; [reflexivity|].
  rewrite Hfg. f_equal. now apply IH.
Qed.

Lemma mapi_from_shift {A B : Type} (f : A -> nat -> B) (xs : list A) :
  forall i,
    JS.mapi_from f (S i) xs = JS.mapi_from (fun x j => f x (S j)) i xs.
Proof.
  induction xs as [|x xs IH]; intros i; simpl; [reflexivity|].
  f_equal. apply IH.
Qed.

Lemma mapi_from_nth_error {A B : Type} (f : A -> nat -> B) (xs : list A) :
  forall i j x,
    nth_error xs j = Some x ->
    nth_error (JS.mapi_from f i xs) j = Some (f x (i + j)%nat).
Proof.
  induction xs as [|y xs IH]; intros i j x Hj.
  - destruct j; discriminate.
  - destruct j as [|j]; simpl in *.
    + injection Hj as ->. now rewrite Nat.add_0_r.
    + rewrite (IH (S i) j x Hj). do 2 f_equal. lia.
Qed.

Lemma nth_pred_length_last {A : Type} (l : list A) (d : A) :
  nth (List.length l - 1) l d = last l d.
Proof.
  induction l as [|a l IH]; [reflexivity|].
  destruct l as [|b l]; [reflexivity|].
  simpl in IH |- *. rewrite Nat.sub_0_r in IH. exact IH.
Qed.

(* ------------------------------------------------------------------ *)
(** ** The loop of the scheduler                                       *)
(* ------------------------------------------------------------------ *)

Section SchedulerFacts.

Variable cfg : Config.

Lemma wordDelaysBody_unfold (staggerMs : Z) (delays : list Z) (c : Z) (w : string) :
  wordDelaysBody cfg staggerMs (delays, c) w
  = (delays ++ [c], c + staggerMs + pauseAfter cfg (JS.slice_last w)).
Proof.
  unfold wordDelaysBody, pauseAfter.
  destruct (JS.includes ".!?" (JS.slice_last w)); [reflexivity|].
  destruct (String.eqb (JS.slice_last w) ","); f_equal; lia.
Qed.

Lemma fold_wordDelaysBody (staggerMs : Z) (words : list string) :
  forall delays c,
    fst (fold_left (wordDelaysBody cfg staggerMs) words (delays, c))
    = delays ++ offsetsFrom cfg staggerMs c words.
Proof.
  induction words as [|w words IH]; intros delays c.
  - simpl. now rewrite app_nil_r.
  - cbn [fold_left offsetsFrom]. rewrite wordDelaysBody_unfold, IH.
    now rewrite <- app_assoc.
Qed.

Lemma computeWordDelays_paused (words : list string) (staggerMs : Z) :
  computeWordDelays cfg words staggerMs true = offsetsFrom cfg staggerMs 0 words.
Proof.
  unfold computeWordDelays. cbn [negb]. now rewrite fold_wordDelaysBody.
Qed.

Lemma offsetsFrom_length (staggerMs : Z) (words : list string) :
  forall c, List.length (offsetsFrom cfg staggerMs c words) = List.length words.
Proof.
  induction words as [|w words IH]; intros c; simpl; [reflexivity|].
  now rewrite IH.
Qed.

Lemma computeWordDelays_length (words : list string) (staggerMs : Z) (pd : bool) :
  List.length (computeWordDelays cfg words staggerMs pd) = List.length words.
Proof.
  destruct pd.
  - rewrite computeWordDelays_paused. apply offsetsFrom_length.
  - apply mapi_from_length.
Qed.

Lemma pausesBefore_cons (w : string) (words : list string) (i : nat) :
  pausesBefore cfg (w :: words) (S i)
  = pauseAfter cfg (JS.slice_last w) + pausesBefore cfg words i.
Proof. reflexivity. Qed.

Lemma offsetsFrom_closed_form (staggerMs : Z) (words : list string) :
  forall c,
    offsetsFrom cfg staggerMs c words
    = JS.mapi_from
        (fun _ i => c + Z.of_nat i * staggerMs + pausesBefore cfg words i)
        0 words.
Proof.
  induction words as [|w words IH]; intros c; [reflexivity|].
  cbn [offsetsFrom JS.mapi_from]. f_equal.
  - unfold pausesBefore. simpl. lia.
  - rewrite IH, mapi_from_shift. apply mapi_from_ext. intros _ j.
    rewrite pausesBefore_cons. lia.
Qed.

End SchedulerFacts.

(* ------------------------------------------------------------------ *)
(** ** Punctuation pauses                                              *)
(* ------------------------------------------------------------------ *)

(** C1.  With punctuation pausing enabled, the delay of token [i] is the
    running offset reached before the token's own pause is added: [i]
    staggers plus the pauses of the tokens before it, so a pause moves only
    the tokens that follow.  With the shipped pauses, ["Hi,"; "there"] at
    stagger 100 gets [0; 250] and ["Stop."; "Now"] gets [0; 400]. *)
Theorem punctuation_pause_moves_later_tokens :
  (forall cfg words staggerMs,
      computeWordDelays cfg words staggerMs true
      = JS.mapi
          (fun _ i => Z.of_nat i * staggerMs + pausesBefore cfg words i)
          words)
  /\ punctPauseShort CONFIG = 150
  /\ punctPauseLong CONFIG = 300
  /\ computeWordDelays CONFIG ["Hi,"; "there"]%string 100 true = [0; 250]
  /\ computeWordDelays CONFIG ["Stop."; "Now"]%string 100 true = [0; 400].
Proof.
  split; [|repeat split; reflexivity].
  intros cfg words staggerMs.
  rewrite computeWordDelays_paused, offsetsFrom_closed_form.
  apply mapi_from_ext. intros _ j. lia.
Qed.

(* ------------------------------------------------------------------ *)
(** ** Monotone delay plans                                            *)
(* ------------------------------------------------------------------ *)

Lemma chain_staggered (staggerMs : Z) (delays : list Z) :
  chain staggerMs delays -> staggered staggerMs delays.
Proof.
  induction delays as [|a delays IH]; intros Hc i x y Hx Hy.
  - destruct i; discriminate.
  - destruct delays as [|b delays]; [destruct i; discriminate|].
    destruct Hc as (Hab & Hs & Hrest).
    destruct i as [|i]; simpl in Hx, Hy.
    + injection Hx as <-. injection Hy as <-. split; assumption.
    + exact (IH Hrest i x y Hx Hy).
Qed.

Lemma chain_map_add (staggerMs k : Z) (f : Z -> Z) (delays : list Z) :
  (forall d, f d = d + k) ->
  chain staggerMs delays -> chain staggerMs (map f delays).
Proof.
  intros Hf. induction delays as [|a delays IH]; intros Hc; [exact I|].
  destruct delays as [|b delays]; [exact I|].
  destruct Hc as (Hab & Hs & Hrest).
  change (f a <= f b /\ f b - f a >= staggerMs
          /\ chain staggerMs (map f (b :: delays))).
  split; [|split]; [rewrite !Hf; lia | rewrite !Hf; lia | exact (IH Hrest)].
Qed.

Lemma chain_app (staggerMs : Z) (l1 l2 : list Z) :
  chain staggerMs l1 ->
  chain staggerMs l2 ->
  (forall a b, l1 <> [] -> last l1 0 = a -> hd_error l2 = Some b ->
               a <= b /\ b - a >= staggerMs) ->
  chain staggerMs (l1 ++ l2).
Proof.
  induction l1 as [|a l1 IH]; intros H1 H2 Hjoin; [exact H2|].
  destruct l1 as [|b l1].
  - destruct l2 as [|c l2]; [exact I|].
    cbn [app chain].
    destruct (Hjoin a c) as [? ?]; try reflexivity; [discriminate|].
    repeat split; assumption.
  - destruct H1 as (Hab & Hs & Hrest).
    change (chain staggerMs (a :: b :: (l1 ++ l2))).
    cbn [chain]. repeat split; try assumption.
    apply (IH Hrest H2). intros x y _ Hx Hy.
    apply Hjoin; [discriminate| exact Hx | exact Hy].
Qed.

Section Monotone.

Variable cfg : Config.
Hypothesis long_nonneg : 0 <= punctPauseLong cfg.
Hypothesis short_nonneg : 0 <= punctPauseShort cfg.

Lemma pauseAfter_nonneg (last : string) : 0 <= pauseAfter cfg last.
Proof.
  unfold pauseAfter.
  destruct (JS.includes ".!?" last); [assumption|].
  destruct (String.eqb last ","); [assumption | lia].
Qed.

Lemma offsetsFrom_chain (staggerMs : Z) (words : list string) :
  0 <= staggerMs ->
  forall c, chain staggerMs (offsetsFrom cfg staggerMs c words).
Proof.
  intros Hs. induction words as [|w words IH]; intros c; [exact I|].
  destruct words as [|w' words]; [exact I|].
  specialize (IH (c + staggerMs + pauseAfter cfg (JS.slice_last w))).
  cbn [offsetsFrom chain] in IH |- *.
  pose proof (pauseAfter_nonneg (JS.slice_last w)).
  repeat split; try lia. exact IH.
Qed.

Lemma mapi_from_chain (staggerMs : Z) (words : list string) :
  0 <= staggerMs ->
  forall i,
    chain staggerMs (JS.mapi_from (fun _ j => Z.of_nat j * staggerMs) i words).
Proof.
  intros Hs. induction words as [|w words IH]; intros i; [exact I|].
  destruct words as [|w' words]; [exact I|].
  specialize (IH (S i)).
  cbn [JS.mapi_from chain] in IH |- *.
  repeat split; try lia. exact IH.
Qed.

Lemma computeWordDelays_chain (words : list string) (staggerMs : Z) (pd : bool) :
  0 <= staggerMs ->
  chain staggerMs (computeWordDelays cfg words staggerMs pd).
Proof.
  intros Hs. destruct pd.
  - rewrite computeWordDelays_paused. now apply offsetsFrom_chain.
  - now apply mapi_from_chain.
Qed.

Lemma computeWordDelays_head (words : list string) (staggerMs : Z) (pd : bool) (b : Z) :
  hd_error (computeWordDelays cfg words staggerMs pd) = Some b -> b = 0.
Proof.
  destruct pd.
  - rewrite computeWordDelays_paused.
    destruct words; simpl; [discriminate|]. now intros [= <-].
  - destruct words; cbn; [discriminate|]. intros [= <-]. lia.
Qed.

Lemma computeSplitDelays_chain (words : list string) (pd : bool) :
  chain 100 (computeSplitDelays cfg words pd).
Proof.
  unfold computeSplitDelays.
  set (g1 := computeWordDelays cfg (firstn _ words) 100 pd).
  set (g2 := computeWordDelays cfg (skipn _ words) 100 pd).
  apply chain_app.
  - apply computeWordDelays_chain. lia.
  - apply chain_map_add with
      (k := (if (0 <? List.length g1)%nat
             then nth (List.length g1 - 1) g1 0 + 100 else 0) + 400).
    + intros d. lia.
    + apply computeWordDelays_chain. lia.
  - intros a b Hne Ha Hb.
    pose proof (computeWordDelays_head
                  (skipn (splitIndex (List.length words)) words) 100 pd) as Hhd.
    fold g2 in Hhd. clearbody g1 g2.
    destruct g2 as [|d rest2]; [discriminate|].
    specialize (Hhd d eq_refl). subst d.
    simpl in Hb. injection Hb as <-.
    destruct g1 as [|x g1']; [contradiction|].
    cbn [List.length Nat.ltb Nat.leb].
    change (S (List.length g1')) with (List.length (x :: g1')).
    rewrite nth_pred_length_last, Ha. lia.
Qed.

End Monotone.

Lemma computeSplitDelays_length (cfg : Config) (words : list string) (pd : bool) :
  List.length (computeSplitDelays cfg words pd) = List.length words.
Proof.
  unfold computeSplitDelays.
  rewrite length_app, length_map, !computeWordDelays_length.
  rewrite <- length_app. now rewrite firstn_skipn.
Qed.

Lemma chain_adjacent (staggerMs : Z) (delays : list Z) (i : nat) :
  chain staggerMs delays ->
  (S i < List.length delays)%nat ->
  exists a b,
    nth_error delays i = Some a
    /\ nth_error delays (S i) = Some b
    /\ a <= b /\ b - a >= staggerMs.
Proof.
  intros Hc Hi.
  destruct (nth_error delays i) as [a|] eqn:Ha;
    [|apply nth_error_None in Ha; lia].
  destruct (nth_error delays (S i)) as [b|] eqn:Hb;
    [|apply nth_error_None in Hb; lia].
  exists a, b. split; [reflexivity|]. split; [reflexivity|].
  exact (chain_staggered staggerMs delays Hc i a b Ha Hb).
Qed.

(** C2.  For every token sequence, every non-negative stagger and every
    non-negative pair of pauses, with or without punctuation pausing, the
    plan has one delay per token and every two adjacent tokens [i] and
    [i + 1] have delays with [delays[i] <= delays[i+1]] and
    [delays[i+1] - delays[i] >= staggerMs]; the split-timing plan
    satisfies the same with its stagger of 100. *)
Theorem delays_monotone_by_stagger :
  forall cfg words staggerMs punctDelay,
    0 <= staggerMs ->
    0 <= punctPauseLong cfg ->
    0 <= punctPauseShort cfg ->
    (List.length (computeWordDelays cfg words staggerMs punctDelay)
     = List.length words
     /\ forall i,
         (S i < List.length words)%nat ->
         exists a b,
           nth_error (computeWordDelays cfg words staggerMs punctDelay) i
           = Some a
           /\ nth_error (computeWordDelays cfg words staggerMs punctDelay) (S i)
              = Some b
           /\ a <= b /\ b - a >= staggerMs)
    /\ (List.length (computeSplitDelays cfg words punctDelay)
        = List.length words
        /\ forall i,
            (S i < List.length words)%nat ->
            exists a b,
              nth_error (computeSplitDelays cfg words punctDelay) i = Some a
              /\ nth_error (computeSplitDelays cfg words punctDelay) (S i)
                 = Some b
              /\ a <= b /\ b - a >= 100)
    /\ staggered staggerMs (computeWordDelays cfg words staggerMs punctDelay)
    /\ staggered 100 (computeSplitDelays cfg words punctDelay).
Proof.
  intros cfg words staggerMs pd Hs Hl Hsh.
  pose proof (computeWordDelays_chain cfg Hl Hsh words staggerMs pd Hs) as Hw.
  pose proof (computeSplitDelays_chain cfg Hl Hsh words pd) as Hsp.
  split; [|split; [|split]].
  - split; [apply computeWordDelays_length|].
    intros i Hi. apply chain_adjacent; [exact Hw|].
    now rewrite computeWordDelays_length.
  - split; [apply computeSplitDelays_length|].
    intros i Hi. apply chain_adjacent; [exact Hsp|].
    now rewrite computeSplitDelays_length.
  - now apply chain_staggered.
  - now apply chain_staggered.
Qed.

Lemma delays_monotone_by_stagger_witness :
  0 <= 100
  /\ 0 <= punctPauseLong CONFIG
  /\ 0 <= punctPauseShort CONFIG
  /\ (2 < List.length ["Wait,"; "stop."; "Go"; "now"]%string)%nat
  /\ nth_error
       (computeWordDelays CONFIG ["Wait,"; "stop."; "Go"; "now"]%string 100 true)
       1 = Some 250
  /\ nth_error
       (computeWordDelays CONFIG ["Wait,"; "stop."; "Go"; "now"]%string 100 true)
       2 = Some 650
  /\ (exists a b,
         nth_error
           (computeWordDelays CONFIG ["Wait,"; "stop."; "Go"; "now"]%string
              100 true) 1 = Some a
         /\ nth_error
              (computeWordDelays CONFIG ["Wait,"; "stop."; "Go"; "now"]%string
                 100 true) 2 = Some b
         /\ a <= b /\ b - a >= 100)
  /\ (exists a b,
         nth_error
           (computeSplitDelays CONFIG ["Wait,"; "stop."; "Go"; "now"]%string
              true) 1 = Some a
         /\ nth_error
              (computeSplitDelays CONFIG ["Wait,"; "stop."; "Go"; "now"]%string
                 true) 2 = Some b
         /\ a <= b /\ b - a >= 100).
Proof.
  assert (Hs : 0 <= 100) by lia.
  assert (Hl : 0 <= punctPauseLong CONFIG) by (simpl; lia).
  assert (Hsh : 0 <= punctPauseShort CONFIG) by (simpl; lia).
  assert (Hi : (2 < List.length ["Wait,"; "stop."; "Go"; "now"]%string)%nat)
    by (simpl; lia).
  pose proof (delays_monotone_by_stagger CONFIG
                ["Wait,"; "stop."; "Go"; "now"]%string 100 true Hs Hl Hsh)
    as ((_ & Hword) & (_ & Hsplit) & _).
  split; [exact Hs|]. split; [exact Hl|]. split; [exact Hsh|].
  split; [exact Hi|]. split; [reflexivity|]. split; [reflexivity|].
  split; [exact (Hword 1%nat Hi) | exact (Hsplit 1%nat Hi)].
Defined.

(** The bound on the stagger cannot be dropped: a negative stagger, which no
    preset passes, makes the plain plan decrease. *)
Lemma negative_stagger_decreases :
  computeWordDelays CONFIG ["a"; "b"]%string (-100) false = [0; -100].
Proof. reflexivity. Qed.

(* ------------------------------------------------------------------ *)
(** ** Split timing                                                    *)
(* ------------------------------------------------------------------ *)

Lemma splitIndex_ceiling (count : nat) :
  3 * Z.of_nat count <= 5 * Z.of_nat (splitIndex count) < 3 * Z.of_nat count + 5.
Proof.
  unfold splitIndex, Qceiling, Qfloor.
  cbn [inject_Z Qmult Qopp Qnum Qden Pos.mul].
  set (n := Z.of_nat count).
  assert (0 <= n) by (subst n; lia).
  assert (0 <= - (- (n * 6) / 10)) by (Z.div_mod_to_equations; lia).
  rewrite Z2Nat.id by assumption.
  Z.div_mod_to_equations. lia.
Qed.

(** C3.  Split Timing cuts the words at the least index [k] with
    [k >= 0.6 * count], schedules both groups on their own with stagger
    100, and moves the second group by the first group's last delay plus
    100 plus 400.  Five words without punctuation pausing get
    [0; 100; 200; 700; 800]. *)
Theorem split_timing_two_phase :
  forall cfg words pDelay,
    let k := splitIndex (List.length words) in
    let g1 := computeWordDelays cfg (firstn k words) 100 pDelay in
    let g2 := computeWordDelays cfg (skipn k words) 100 pDelay in
    (3 * Z.of_nat (List.length words) <= 5 * Z.of_nat k
       < 3 * Z.of_nat (List.length words) + 5)
    /\ computeSplitDelays cfg words pDelay
       = g1 ++ map (fun d => d + (last g1 0 + 100) + 400) g2
    /\ (forall a b c d e,
           computeSplitDelays cfg [a; b; c; d; e] false
           = [0; 100; 200; 700; 800]).
Proof.
  intros cfg words pDelay k g1 g2.
  pose proof (splitIndex_ceiling (List.length words)) as Hk. fold k in Hk.
  split; [exact Hk|]. split; [|reflexivity].
  unfold computeSplitDelays. fold k. fold g1. fold g2.
  f_equal.
  destruct (0 <? List.length g1)%nat eqn:Hlen.
  - now rewrite nth_pred_length_last.
  - apply Nat.ltb_ge in Hlen.
    assert (Hg1 : List.length g1 = 0%nat) by lia.
    unfold g1 in Hg1. rewrite computeWordDelays_length in Hg1.
    assert (Hw : words = []).
    { destruct words as [|w words]; [reflexivity|].
      rewrite length_firstn in Hg1. simpl List.length in Hg1, Hk. lia. }
    subst words. unfold g2. simpl skipn.
    destruct pDelay; reflexivity.
Qed.

(* ------------------------------------------------------------------ *)
(** ** The plain plan                                                  *)
(* ------------------------------------------------------------------ *)

Lemma fold_plain (staggerMs : Z) (words : list string) :
  forall delays c i,
    c = Z.of_nat i * staggerMs ->
    fst (fold_left
           (fun (st : list Z * Z) (_ : string) =>
              (fst st ++ [snd st], snd st + staggerMs))
           words (delays, c))
    = delays ++ JS.mapi_from (fun _ j => Z.of_nat j * staggerMs) i words.
Proof.
  induction words as [|w words IH]; intros delays c i Hc.
  - simpl. now rewrite app_nil_r.
  - cbn [fold_left JS.mapi_from fst snd].
    rewrite (IH _ _ (S i)) by lia.
    rewrite <- app_assoc. now subst c.
Qed.

Lemma plain_delay_at_index (cfg : Config)
  (words : list string) (staggerMs : Z) (i : nat) :
  (i < List.length words)%nat ->
  nth_error (computeWordDelays cfg words staggerMs false) i
  = Some (Z.of_nat i * staggerMs).
Proof.
  intros Hi.
  destruct (nth_error words i) as [w|] eqn:Hw.
  - unfold computeWordDelays, JS.mapi. cbn [negb].
    now rewrite (mapi_from_nth_error _ words 0 i w Hw).
  - apply nth_error_None in Hw. lia.
Qed.

(** C4.  Without punctuation pausing the plan has one delay per token,
    the delay of token [i] is [i * staggerMs] whatever the tokens are, and
    the plan is the one the cumulative algorithm yields when its two
    punctuation steps are left out. *)
Theorem plain_delays_are_index_times_stagger :
  forall cfg words staggerMs,
    List.length (computeWordDelays cfg words staggerMs false)
    = List.length words
    /\ (forall i,
           (i < List.length words)%nat ->
           nth_error (computeWordDelays cfg words staggerMs false) i
           = Some (Z.of_nat i * staggerMs))
    /\ computeWordDelays cfg words staggerMs false
       = cumulativePlain words staggerMs.
Proof.
  intros cfg words staggerMs. split; [apply computeWordDelays_length|]. split.
  - apply plain_delay_at_index.
  - unfold cumulativePlain. now rewrite (fold_plain staggerMs words [] 0 0).
Qed.

Lemma plain_delays_are_index_times_stagger_witness :
  (2 < List.length ["Hi,"; "there."; "you"]%string)%nat
  /\ nth_error
       (computeWordDelays CONFIG ["Hi,"; "there."; "you"]%string 120 false) 2
     = Some 240.
Proof.
  assert (H : (2 < List.length ["Hi,"; "there."; "you"]%string)%nat)
    by (simpl; lia).
  split; [exact H|].
  exact (proj1 (proj2 (plain_delays_are_index_times_stagger CONFIG
                         ["Hi,"; "there."; "you"]%string 120)) 2%nat H).
Defined.

(* ------------------------------------------------------------------ *)
(** ** Empty input                                                     *)
(* ------------------------------------------------------------------ *)

(** C9.  The empty string has no tokens, in word mode and in character
    mode, and every scheduler, the split one included, maps the empty
    token sequence to the empty plan; all of them are total functions, so
    there is no error to raise. *)
Theorem empty_input_gives_empty_plan :
  splitWords EmptyString = []
  /\ splitChars EmptyString = []
  /\ (forall cfg staggerMs punctDelay,
         computeWordDelays cfg [] staggerMs punctDelay = []
         /\ computeCharDelays cfg [] staggerMs punctDelay = []
         /\ computeSplitDelays cfg [] punctDelay = []
         /\ computeWordDelays cfg (splitWords EmptyString) staggerMs punctDelay = []
         /\ computeSplitDelays cfg (splitWords EmptyString) punctDelay = []).
Proof.
  split; [reflexivity|]. split; [reflexivity|].
  intros cfg staggerMs punctDelay. destruct punctDelay; repeat split; reflexivity.
Qed.

(* ------------------------------------------------------------------ *)
(** ** Skew Pop: the emphasis word                                     *)
(* ------------------------------------------------------------------ *)

Lemma mapi_from_nth_error_inv {A B : Type} (f : A -> nat -> B) (xs : list A) :
  forall i j y,
    nth_error (JS.mapi_from f i xs) j = Some y ->
    exists x, nth_error xs j = Some x /\ y = f x (i + j)%nat.
Proof.
  intros i j y Hy.
  destruct (nth_error xs j) as [x|] eqn:Hx.
  - exists x. split; [reflexivity|].
    rewrite (mapi_from_nth_error f xs i j x Hx) in Hy. now injection Hy.
  - apply nth_error_None in Hx.
    assert (nth_error (JS.mapi_from f i xs) j = None) as Hn
      by (apply nth_error_None; now rewrite mapi_from_length).
    congruence.
Qed.

Lemma emphasis_count (f : string -> nat -> SkewPop.SkewPopWordProps) (e : Z)
  (words : list string) :
  (forall w i, SkewPop.isEmphasis (f w i) = (Z.of_nat i =? e)) ->
  forall k,
    List.length (filter SkewPop.isEmphasis (JS.mapi_from f k words))
    = if (Z.of_nat k <=? e) && (e <? Z.of_nat k + Z.of_nat (List.length words))
      then 1%nat else 0%nat.
Proof.
  intros Hf. induction words as [|w words IH]; intros k.
  - cbn [JS.mapi_from filter List.length].
    destruct (Z.leb_spec (Z.of_nat k) e), (Z.ltb_spec e (Z.of_nat k + Z.of_nat 0));
      simpl; try reflexivity; lia.
  - cbn [JS.mapi_from filter]. rewrite Hf.
    change (List.length (w :: words)) with (S (List.length words)).
    destruct (Z.eqb_spec (Z.of_nat k) e) as [He|He].
    + cbn [List.length]. rewrite IH.
      destruct (Z.leb_spec (Z.of_nat (S k)) e); [lia|].
      destruct (Z.leb_spec (Z.of_nat k) e); [|lia].
      destruct (Z.ltb_spec e (Z.of_nat k + Z.of_nat (S (List.length words))));
        [reflexivity | lia].
    + rewrite IH.
      destruct (Z.leb_spec (Z.of_nat (S k)) e), (Z.leb_spec (Z.of_nat k) e),
        (Z.ltb_spec e (Z.of_nat (S k) + Z.of_nat (List.length words))),
        (Z.ltb_spec e (Z.of_nat k + Z.of_nat (S (List.length words))));
        simpl; try reflexivity; lia.
Qed.

(** C6.  For a text with at least one word, the row has exactly one
    emphasis word and it sits at index [min(2, count - 1)]; for 1, 2, 3 and
    10 words that index is 0, 1, 2 and 2. *)
Theorem emphasis_token_unique_at_min :
  forall cfg text playing punctDelay,
    let words := splitWords text in
    let row := SkewPop.SkewPop cfg text playing punctDelay in
    words <> [] ->
    SkewPop.emphasisIndex words = Z.min 2 (Z.of_nat (List.length words) - 1)
    /\ 0 <= SkewPop.emphasisIndex words < Z.of_nat (List.length words)
    /\ List.length row = List.length words
    /\ (forall i p,
           nth_error row i = Some p ->
           (SkewPop.isEmphasis p = true
            <-> Z.of_nat i = SkewPop.emphasisIndex words))
    /\ List.length (filter SkewPop.isEmphasis row) = 1%nat
    /\ (forall ws : list string,
           (List.length ws = 1%nat -> SkewPop.emphasisIndex ws = 0)
           /\ (List.length ws = 2%nat -> SkewPop.emphasisIndex ws = 1)
           /\ (List.length ws = 3%nat -> SkewPop.emphasisIndex ws = 2)
           /\ (List.length ws = 10%nat -> SkewPop.emphasisIndex ws = 2)).
Proof.
  intros cfg text playing punctDelay words row Hne.
  assert (Hlen : (0 < List.length words)%nat)
    by (destruct words; [contradiction | simpl; lia]).
  assert (Hidx : 0 <= SkewPop.emphasisIndex words < Z.of_nat (List.length words))
    by (unfold SkewPop.emphasisIndex; lia).
  split; [reflexivity|]. split; [exact Hidx|].
  split; [apply mapi_from_length|]. split; [|split].
  - intros i p Hp. unfold row, SkewPop.SkewPop, JS.mapi in Hp.
    apply mapi_from_nth_error_inv in Hp. destruct Hp as (w & _ & ->).
    cbn [SkewPop.isEmphasis]. fold words. rewrite Nat.add_0_l.
    apply Z.eqb_eq.
  - unfold row, SkewPop.SkewPop, JS.mapi. fold words.
    rewrite (emphasis_count _ (SkewPop.emphasisIndex words)) by reflexivity.
    destruct (Z.leb_spec (Z.of_nat 0) (SkewPop.emphasisIndex words)); [|lia].
    destruct (Z.ltb_spec (SkewPop.emphasisIndex words)
                (Z.of_nat 0 + Z.of_nat (List.length words))); [reflexivity|lia].
  - intros ws. unfold SkewPop.emphasisIndex.
    repeat split; intros ->; reflexivity.
Qed.

Lemma emphasis_token_unique_at_min_witness :
  splitWords "Make words pop" <> []
  /\ List.length
       (filter SkewPop.isEmphasis
          (SkewPop.SkewPop CONFIG "Make words pop" true true))
     = 1%nat
  /\ SkewPop.emphasisIndex (splitWords "Make words pop") = 2.
Proof.
  assert (H : splitWords "Make words pop" <> []) by discriminate.
  split; [exact H|].
  pose proof (emphasis_token_unique_at_min CONFIG "Make words pop"
                true true H) as (_ & _ & _ & _ & Hone & Hex).
  split; [exact Hone|].
  apply (proj1 (proj2 (proj2 (Hex (splitWords "Make words pop"))))).
  reflexivity.
Defined.

(** Without punctuation pausing the emphasis word is revealed by 460 ms at
    the latest, before its emphasis starts at 600 ms. *)
Lemma skew_pop_plain_emphasis_after_reveal :
  forall cfg text playing i p,
    nth_error (SkewPop.SkewPop cfg text playing false) i = Some p ->
    SkewPop.emphasisAfterReveal (SkewPop.SkewPopWord p) = true.
Proof.
  intros cfg text playing i p Hp.
  unfold SkewPop.SkewPop, JS.mapi in Hp.
  apply mapi_from_nth_error_inv in Hp. destruct Hp as (w & Hw & ->).
  rewrite Nat.add_0_l.
  assert (Hi : (i < List.length (splitWords text))%nat)
    by (apply nth_error_Some; congruence).
  pose proof (plain_delay_at_index cfg (splitWords text)
                80 i Hi) as Hd.
  unfold SkewPop.SkewPopWord, SkewPop.emphasisAfterReveal, SkewPop.revealEnd,
    SkewPop.skewStart, SkewPop.colorStart.
  cbn [SkewPop.isPlaying SkewPop.isEmphasis SkewPop.delay].
  destruct playing; [|reflexivity].
  destruct (Z.eqb_spec (Z.of_nat i) (SkewPop.emphasisIndex (splitWords text)))
    as [He|He]; [|reflexivity].
  cbn [SkewPop.opacity SkewPop.skewX SkewPop.colorProgress option_map
       Reanimated.endsAt Reanimated.startsAt].
  rewrite (nth_error_nth _ _ 0 Hd).
  unfold SkewPop.emphasisIndex in He.
  apply andb_true_intro. split; apply Z.leb_le; lia.
Qed.

(** C5.  With the default punctuation pausing, the text "Hi, there now"
    puts the emphasis word at delay 310: its reveal is complete at 610 ms,
    while both emphasis tracks start at 600 ms. *)
Theorem skew_pop_emphasis_before_reveal_ends :
  exists p,
    nth_error (SkewPop.SkewPop CONFIG "Hi, there now" true true) 2 = Some p
    /\ SkewPop.isEmphasis p = true
    /\ SkewPop.delay p = 310
    /\ SkewPop.revealEnd (SkewPop.SkewPopWord p) = Some 610
    /\ SkewPop.skewStart (SkewPop.SkewPopWord p) = Some 600
    /\ SkewPop.colorStart (SkewPop.SkewPopWord p) = Some 600
    /\ SkewPop.emphasisAfterReveal (SkewPop.SkewPopWord p) = false.
Proof.
  eexists. split; [reflexivity|]. repeat split; reflexivity.
Qed.

(* ------------------------------------------------------------------ *)
(** ** Shimmer intensity                                               *)
(* ------------------------------------------------------------------ *)

Lemma intensityFormula_range (position coordinate falloff : Q) :
  (0 <= falloff)%Q ->
  (0 <= Shimmer.intensityFormula position coordinate falloff)%Q
  /\ (Shimmer.intensityFormula position coordinate falloff <= 1)%Q.
Proof.
  intros Hf. unfold Shimmer.intensityFormula. split.
  - apply Q.le_max_l.
  - apply Q.max_lub; [discriminate|].
    pose proof (Qmult_le_0_compat _ _ (Qabs_nonneg (position - coordinate)) Hf)
      as Hprod.
    rewrite <- (Qplus_0_r 1) at 2. unfold Qminus.
    apply Qplus_le_compat; [apply Qle_refl|].
    apply (Qopp_le_compat 0). exact Hprod.
Qed.

(** C7.  For every shimmer position and every token, the intensity is
    [max(0, 1 - |position - coordinate| * falloff)]: the coordinate is the
    index and the falloff 0.8 for a word, the coordinate is
    [index / (totalChars / 4)] and the falloff 0.6 for a character of a
    non-empty text; both intensities lie between 0 and 1. *)
Theorem shimmer_intensity_formula_and_range :
  forall (shimmerPos : Q) (index totalChars : nat),
    (0 < totalChars)%nat ->
    Shimmer.wordIntensity shimmerPos index
    = Shimmer.intensityFormula shimmerPos (inject_Z (Z.of_nat index)) (8 # 10)
    /\ Shimmer.charIntensity shimmerPos index totalChars
       = Shimmer.intensityFormula shimmerPos
           (inject_Z (Z.of_nat index) / (inject_Z (Z.of_nat totalChars) / 4))
           (6 # 10)
    /\ (0 <= Shimmer.wordIntensity shimmerPos index)%Q
    /\ (Shimmer.wordIntensity shimmerPos index <= 1)%Q
    /\ (0 <= Shimmer.charIntensity shimmerPos index totalChars)%Q
    /\ (Shimmer.charIntensity shimmerPos index totalChars <= 1)%Q.
Proof.
  intros shimmerPos index totalChars Htotal.
  assert (Hpos : Shimmer.charPos index totalChars
                 = (inject_Z (Z.of_nat index)
                    / (inject_Z (Z.of_nat totalChars) / 4))%Q).
  { unfold Shimmer.charPos.
    destruct (Nat.ltb_spec 0 totalChars); [reflexivity | lia]. }
  assert (Hw : Shimmer.wordIntensity shimmerPos index
               = Shimmer.intensityFormula shimmerPos
                   (inject_Z (Z.of_nat index)) (8 # 10)) by reflexivity.
  assert (Hc : Shimmer.charIntensity shimmerPos index totalChars
               = Shimmer.intensityFormula shimmerPos
                   (inject_Z (Z.of_nat index)
                    / (inject_Z (Z.of_nat totalChars) / 4)) (6 # 10)).
  { unfold Shimmer.charIntensity. now rewrite Hpos. }
  split; [exact Hw|]. split; [exact Hc|].
  rewrite Hw, Hc.
  destruct (intensityFormula_range shimmerPos (inject_Z (Z.of_nat index))
              (8 # 10)) as [? ?]; [discriminate|].
  destruct (intensityFormula_range shimmerPos
              (inject_Z (Z.of_nat index) / (inject_Z (Z.of_nat totalChars) / 4))
              (6 # 10)) as [? ?]; [discriminate|].
  repeat split; assumption.
Qed.

Lemma shimmer_intensity_formula_and_range_witness :
  (0 < 5)%nat
  /\ (0 <= Shimmer.wordIntensity (3 # 2) 1)%Q
  /\ (Shimmer.charIntensity (3 # 2) 1 5 <= 1)%Q.
Proof.
  assert (H : (0 < 5)%nat) by lia.
  split; [exact H|].
  pose proof (shimmer_intensity_formula_and_range (3 # 2) 1 5 H)
    as (_ & _ & Hw & _ & _ & Hc).
  split; [exact Hw | exact Hc].
Defined.

(* ------------------------------------------------------------------ *)
(** ** Tokenizer                                                       *)
(* ------------------------------------------------------------------ *)

Lemma append_empty_r (s : string) : (s ++ EmptyString)%string = s.
Proof. induction s as [|c s IH]; simpl; [reflexivity | now rewrite IH]. Qed.

Lemma append_assoc (s1 s2 s3 : string) :
  ((s1 ++ s2) ++ s3)%string = (s1 ++ (s2 ++ s3))%string.
Proof. induction s1 as [|c s1 IH]; simpl; [reflexivity | now rewrite IH]. Qed.

Lemma concat_space_cons (w : string) (ws : list string) :
  String.concat " " (w :: ws)
  = (w ++ fold_right (fun x acc => " " ++ x ++ acc) EmptyString ws)%string.
Proof.
  revert w. induction ws as [|x ws IH]; intros w.
  - simpl. now rewrite append_empty_r.
  - change (String.concat " " (w :: x :: ws))
      with (w ++ " " ++ String.concat " " (x :: ws))%string.
    now rewrite IH.
Qed.

Lemma renderRow_fold (ws : list string) :
  renderRow ws = fold_right (fun x acc => x ++ " " ++ acc)%string EmptyString ws.
Proof.
  unfold renderRow. induction ws as [|x ws IH]; [reflexivity|].
  cbn [map fold_right]. rewrite <- IH.
  destruct ws as [|y ws]; [reflexivity|].
  cbn [map String.concat]. simpl String.append at 2.
  now rewrite append_assoc.
Qed.

Lemma renderRow_cons (w : string) (ws : list string) :
  renderRow (w :: ws) = (String.concat " " (w :: ws) ++ " ")%string.
Proof.
  rewrite renderRow_fold, concat_space_cons. revert w.
  induction ws as [|x ws IH]; intros w.
  - cbn [fold_right]. now rewrite !append_empty_r.
  - pose proof (IH x) as Hx. cbn [fold_right] in Hx |- *.
    rewrite Hx. now rewrite !append_assoc.
Qed.

(** The scanner against the pieces of [split]: what it writes once a word
    has been copied, with a space owed or not, and from the start. *)
Lemma collapseScan_split (s : string) :
  match JS.split " " s with
  | [] => False
  | w :: ws =>
      let kept := filter (fun x => (0 <? String.length x)%nat) in
      let tail l := fold_right (fun x acc => " " ++ x ++ acc)%string EmptyString l in
      collapseScan true false s = (w ++ tail (kept ws))%string
      /\ collapseScan true true s = tail (kept (w :: ws))
      /\ collapseScan false false s = String.concat " " (kept (w :: ws))
  end.
Proof.
  induction s as [|c s IH]; [repeat split|].
  cbn [JS.split collapseScan].
  destruct (JS.split " " s) as [|w ws]; [contradiction|].
  destruct IH as (Hcopy & Howed & Hstart).
  destruct (Ascii.eqb c " ").
  - cbv zeta. cbn [filter String.length Nat.ltb Nat.leb String.append].
    repeat split; assumption.
  - cbv zeta. cbn [filter String.length Nat.ltb Nat.leb].
    rewrite concat_space_cons. cbn [fold_right String.append].
    rewrite Hcopy. repeat split.
Qed.

Example collapseSpaces_example : collapseSpaces "  to  be or " = "to be or"%string.
Proof. reflexivity. Qed.

(** C8.  Word tokenization is a function of the text alone, and the tokens
    joined by single spaces are the text with its spaces collapsed; the
    rendered row, where every word carries a trailing space, is that string
    followed by one space. *)
Theorem tokenizer_deterministic_and_collapsing :
  forall text,
    (forall text', text = text' -> splitWords text = splitWords text')
    /\ String.concat " " (splitWords text) = collapseSpaces text
    /\ renderRow (splitWords text)
       = match splitWords text with
         | [] => EmptyString
         | _ :: _ => (collapseSpaces text ++ " ")%string
         end.
Proof.
  intros text. split; [now intros text' <-|].
  pose proof (collapseScan_split text) as H.
  unfold splitWords, collapseSpaces.
  destruct (JS.split " " text) as [|w ws]; [contradiction|].
  destruct H as (_ & _ & Hstart). cbv zeta in Hstart.
  split; [now rewrite Hstart|].
  rewrite Hstart.
  destruct (filter (fun w0 => (0 <? String.length w0)%nat) (w :: ws)) as [|x xs];
    [reflexivity|].
  apply renderRow_cons.
Qed.

Lemma tokenizer_deterministic_and_collapsing_witness :
  splitWords " to  be or " = splitWords " to  be or "
  /\ String.concat " " (splitWords " to  be or ") = "to be or"%string.
Proof.
  split.
  - apply (proj1 (tokenizer_deterministic_and_collapsing " to  be or ")).
    reflexivity.
  - apply (proj1 (proj2 (tokenizer_deterministic_and_collapsing " to  be or "))).
Defined.

(* ------------------------------------------------------------------ *)
(** ** Typewriter                                                      *)
(* ------------------------------------------------------------------ *)

Lemma slice_to_prefix (s : string) :
  forall n, String.prefix (JS.slice_to s n) s = true.
Proof.
  unfold JS.slice_to.
  induction s as [|c s IH]; intros n.
  - destruct n; reflexivity.
  - destruct n as [|n]; [reflexivity|].
    cbn [String.substring String.prefix].
    destruct (ascii_dec c c) as [_|Hne]; [apply IH | now elim Hne].
Qed.

Lemma setNth_length {A : Type} (x : A) (l : list A) :
  forall k, List.length (Typewriter.setNth k x l) = List.length l.
Proof.
  induction l as [|y l IH]; intros k; [reflexivity|].
  destruct k; simpl; [reflexivity | now rewrite IH].
Qed.

Lemma setNth_nth_error {A : Type} (x : A) (l : list A) :
  forall k, (k < List.length l)%nat ->
            nth_error (Typewriter.setNth k x l) k = Some x.
Proof.
  induction l as [|y l IH]; intros k Hk; [simpl in Hk; lia|].
  destruct k; simpl; [reflexivity|]. apply IH. simpl in Hk. lia.
Qed.

Lemma clear_named_timer (id : nat) (ts : list Typewriter.Timer) :
  (forall t, In t ts -> Typewriter.timerId t = id) ->
  filter (fun t => negb (Typewriter.timerId t =? id)%nat) ts = [].
Proof.
  induction ts as [|t ts IH]; intros Hall; [reflexivity|].
  cbn [filter]. rewrite (Hall t (or_introl eq_refl)), Nat.eqb_refl.
  cbn [negb]. apply IH. intros t' Ht'. apply Hall. now right.
Qed.

(** After the opening of the effect (and after its cleanup) nothing is
    pending and [timeoutRef] is null. *)
Lemma clearPending_clears (s : Typewriter.State) :
  typingInvariant s ->
  Typewriter.timers (Typewriter.clearPending s) = []
  /\ Typewriter.timeoutRef (Typewriter.clearPending s) = None
  /\ Typewriter.envs (Typewriter.clearPending s) = Typewriter.envs s
  /\ Typewriter.props (Typewriter.clearPending s) = Typewriter.props s
  /\ Typewriter.visibleChars (Typewriter.clearPending s)
     = Typewriter.visibleChars s
  /\ Typewriter.hasCleanup (Typewriter.clearPending s)
     = Typewriter.hasCleanup s
  /\ Typewriter.effectDue (Typewriter.clearPending s)
     = Typewriter.effectDue s.
Proof.
  intros [Htimers _]. unfold Typewriter.clearPending.
  destruct (Typewriter.timeoutRef s) as [id|] eqn:Href.
  - cbn. repeat split. apply clear_named_timer.
    intros t Ht. destruct (Htimers t Ht) as (Hid & _). congruence.
  - repeat split; try assumption.
    destruct (Typewriter.timers s) as [|t ts]; [reflexivity|].
    destruct (Htimers t (or_introl eq_refl)) as (Hid & _). congruence.
Qed.

Lemma typingInvariant_mount (p : Typewriter.Props) :
  typingInvariant (Typewriter.mount p).
Proof. split; [intros t []| now split]. Qed.

Lemma typingInvariant_render (p : Typewriter.Props) (s : Typewriter.State) :
  typingInvariant s -> typingInvariant (Typewriter.render p s).
Proof.
  intros [Htimers Hlive]. split; [exact Htimers|].
  cbn [Typewriter.render Typewriter.hasCleanup Typewriter.timers
       Typewriter.visibleChars Typewriter.effectDue Typewriter.props].
  destruct (Typewriter.hasCleanup s); [|exact Hlive].
  destruct Hlive as (e & He & Hv & Hi & _ & Ht).
  exists e. repeat split; try assumption. discriminate.
Qed.

Lemma typingInvariant_clearPending (s : Typewriter.State) :
  typingInvariant s -> typingInvariant (Typewriter.clearPending s).
Proof.
  intros Hinv.
  destruct (clearPending_clears s Hinv) as (Ht & Hr & He & Hp & Hv & Hc & Hd).
  destruct Hinv as [_ Hlive].
  unfold typingInvariant, liveEnv. rewrite Ht, He, Hp, Hv, Hc, Hd.
  split; [intros t []|].
  destruct (Typewriter.hasCleanup s).
  - destruct Hlive as (e & Hlast & Hvis & Hidx & Htext & _).
    exists e. repeat split; try assumption. intros Hne. now elim Hne.
  - destruct Hlive as [_ Hvis]. now split.
Qed.

Lemma nth_error_snoc_last {A : Type} (l : list A) (x : A) :
  nth_error (l ++ [x]) (List.length (l ++ [x]) - 1) = Some x.
Proof.
  rewrite length_app. simpl List.length.
  replace (List.length l + 1 - 1)%nat with (List.length l) by lia.
  rewrite nth_error_app2 by lia. now rewrite Nat.sub_diag.
Qed.

Lemma typingInvariant_runEffect (s : Typewriter.State) :
  typingInvariant s -> typingInvariant (Typewriter.runEffect s).
Proof.
  intros Hinv. unfold Typewriter.runEffect.
  set (s1 := if Typewriter.hasCleanup s then Typewriter.clearPending s else s).
  assert (Hinv1 : typingInvariant s1).
  { unfold s1. destruct (Typewriter.hasCleanup s);
      [now apply typingInvariant_clearPending | exact Hinv]. }
  destruct (clearPending_clears s1 Hinv1) as (Ht & Hr & He & Hp & Hv & Hc & Hd).
  unfold Typewriter.typingEffect.
  destruct (Typewriter.isPlaying (Typewriter.props (Typewriter.clearPending s1))).
  - cbn. unfold typingInvariant, liveEnv. cbn. rewrite Ht. cbn. split.
    + intros t [<-|[]]. cbn. repeat split.
      rewrite length_app. simpl. lia.
    + eexists. split; [apply nth_error_snoc_last|].
      cbn. repeat split; lia.
  - cbn. unfold typingInvariant. cbn. rewrite Ht.
    split; [intros t []| now split].
Qed.

(** A fired timer: what [typeNext] finds and what it leaves. *)
Lemma fire_result (cfg : Config) (s s' : Typewriter.State) (id : nat) :
  typingInvariant s ->
  Typewriter.step cfg (Typewriter.Fire id) s = Some s' ->
  exists e,
    liveEnv s = Some e
    /\ Typewriter.hasCleanup s = true
    /\ typingInvariant s'
    /\ Typewriter.props s' = Typewriter.props s
    /\ Typewriter.effectDue s' = Typewriter.effectDue s
    /\ Typewriter.visibleChars s'
       = if (String.length (Typewriter.envText e) =? 0)%nat
         then Typewriter.visibleChars s
         else S (Typewriter.visibleChars s).
Proof.
  intros [Htimers Hlive] Hstep. cbn [Typewriter.step] in Hstep.
  destruct (find _ (Typewriter.timers s)) as [t|] eqn:Hfind; [|discriminate].
  injection Hstep as <-.
  apply find_some in Hfind. destruct Hfind as [Hin Hid].
  apply Nat.eqb_eq in Hid.
  destruct (Htimers t Hin) as (Href & Henv & Hclean).
  rewrite Hclean in Hlive.
  destruct Hlive as (e & Hlast & Hvis & Hidx & Htext & Hpending).
  assert (Hne : Typewriter.timers s <> [])
    by (intros Heq; rewrite Heq in Hin; exact Hin).
  specialize (Hpending Hne).
  assert (Hcleared :
            filter (fun t0 => negb (Typewriter.timerId t0 =? id)%nat)
              (Typewriter.timers s) = []).
  { apply clear_named_timer. intros t' Ht'.
    destruct (Htimers t' Ht') as (Href' & _). congruence. }
  assert (Hk : (List.length (Typewriter.envs s) - 1 < List.length (Typewriter.envs s))%nat).
  { apply nth_error_Some. unfold liveEnv in Hlast. congruence. }
  exists e. split; [exact Hlast|]. split; [exact Hclean|].
  unfold Typewriter.typeNext, Typewriter.clearTimeout.
  cbn [Typewriter.setTimers Typewriter.envs]. rewrite Henv.
  unfold liveEnv in Hlast. rewrite Hlast, Hcleared.
  destruct (Nat.leb_spec (String.length (Typewriter.envText e))
              (Typewriter.index e)) as [Hdone|Hmore].
  - assert (Hlen : String.length (Typewriter.envText e) = 0%nat) by lia.
    rewrite Hlen. split; [|cbn; auto].
    unfold typingInvariant, liveEnv. cbn. rewrite Hclean.
    split; [intros t' []|].
    exists e. repeat split; try assumption. intros Habs. now elim Habs.
  - destruct (Nat.eqb_spec (String.length (Typewriter.envText e)) 0) as [Hz|_];
      [lia|].
    destruct (Nat.leb_spec (String.length (Typewriter.envText e))
                (S (Typewriter.index e))) as [Hlast'|Hnext].
    + split; [|cbn; rewrite Hvis; auto].
      unfold typingInvariant, liveEnv. cbn. rewrite Hclean, setNth_length.
      split; [intros t' []|].
      eexists. split; [apply setNth_nth_error; exact Hk|].
      cbn. repeat split; try assumption; try lia.
      intros Habs. now elim Habs.
    + split; [|cbn; rewrite Hvis; auto].
      unfold typingInvariant, liveEnv. cbn. rewrite Hclean, setNth_length.
      split.
      * intros t' [<-|[]]. cbn. auto.
      * eexists. split; [apply setNth_nth_error; exact Hk|].
        cbn. repeat split; try assumption; try lia.
Qed.

Lemma typingInvariant_step (cfg : Config) (ev : Typewriter.Event)
  (s s' : Typewriter.State) :
  typingInvariant s -> Typewriter.step cfg ev s = Some s' -> typingInvariant s'.
Proof.
  intros Hinv Hstep. destruct ev as [p| |id].
  - injection Hstep as <-. now apply typingInvariant_render.
  - cbn in Hstep. destruct (Typewriter.effectDue s); [|discriminate].
    injection Hstep as <-. now apply typingInvariant_runEffect.
  - destruct (fire_result cfg s s' id Hinv Hstep) as (e & _ & _ & H & _).
    exact H.
Qed.

Lemma typingInvariant_run (cfg : Config) (evs : list Typewriter.Event) :
  forall s s',
    typingInvariant s -> Typewriter.run cfg evs s = Some s' -> typingInvariant s'.
Proof.
  induction evs as [|ev evs IH]; intros s s' Hinv Hrun.
  - injection Hrun as <-. exact Hinv.
  - cbn [Typewriter.run] in Hrun.
    destruct (Typewriter.step cfg ev s) as [s1|] eqn:Hstep; [|discriminate].
    apply (IH s1 s'); [|exact Hrun].
    exact (typingInvariant_step cfg ev s s1 Hinv Hstep).
Qed.

(** Between a render with new props and the effect run that follows it,
    the play cycle in progress is still the previous one: the count is its
    [index], inside the text that cycle was started with. *)
Lemma typewriter_count_within_cycle_text :
  forall cfg p evs s,
    Typewriter.run cfg evs (Typewriter.mount p) = Some s ->
    Typewriter.hasCleanup s = true ->
    exists e,
      liveEnv s = Some e
      /\ Typewriter.visibleChars s = Typewriter.index e
      /\ (Typewriter.index e <= String.length (Typewriter.envText e))%nat.
Proof.
  intros cfg p evs s Hrun Hclean.
  destruct (typingInvariant_run cfg evs _ _ (typingInvariant_mount p) Hrun)
    as [_ Hlive].
  rewrite Hclean in Hlive. destruct Hlive as (e & He & Hv & Hi & _).
  exists e. repeat split; assumption.
Qed.

(** When the effect has run without [isPlaying], no timeout is pending:
    nothing of an earlier cycle can fire. *)
Lemma typewriter_stopped_has_no_timer :
  forall cfg p evs s,
    Typewriter.run cfg evs (Typewriter.mount p) = Some s ->
    Typewriter.hasCleanup s = false ->
    Typewriter.timers s = [] /\ Typewriter.visibleChars s = 0%nat.
Proof.
  intros cfg p evs s Hrun Hclean.
  destruct (typingInvariant_run cfg evs _ _ (typingInvariant_mount p) Hrun)
    as [_ Hlive].
  now rewrite Hclean in Hlive.
Qed.

(** C10, as the code has it.  In every state the typewriter can reach
    the rendered string is a prefix of the current text, and the visible
    count is at most the length of the text of the play cycle in progress.
    That text is the current text once the effect has run for the current
    props, so from then on the count is at most the length of the current
    text; between a render with a new text and the effect run that follows
    it is still the previous text.  A fired step adds exactly one to the
    count when the text of its cycle is not empty, and leaves the count
    unchanged when that text is empty. *)
Theorem typewriter_count_within_text :
  forall cfg p evs s,
    Typewriter.run cfg evs (Typewriter.mount p) = Some s ->
    String.prefix (Typewriter.rendered s)
      (Typewriter.text (Typewriter.props s)) = true
    /\ (Typewriter.visibleChars s <= String.length (cycleText s))%nat
    /\ (Typewriter.effectDue s = false ->
        cycleText s = Typewriter.text (Typewriter.props s)
        /\ (Typewriter.visibleChars s
            <= String.length (Typewriter.text (Typewriter.props s)))%nat)
    /\ (forall id s',
           Typewriter.step cfg (Typewriter.Fire id) s = Some s' ->
           Typewriter.visibleChars s'
           = if (String.length (cycleText s) =? 0)%nat
             then Typewriter.visibleChars s
             else S (Typewriter.visibleChars s)).
Proof.
  intros cfg p evs s Hrun.
  pose proof (typingInvariant_run cfg evs _ _ (typingInvariant_mount p) Hrun)
    as Hinv.
  assert (Hbound : (Typewriter.visibleChars s <= String.length (cycleText s))%nat).
  { destruct Hinv as [_ Hlive]. unfold cycleText.
    destruct (Typewriter.hasCleanup s).
    - destruct Hlive as (e & He & Hvis & Hidx & _). now rewrite He, Hvis.
    - destruct Hlive as [_ ->]. lia. }
  assert (Hsettled : Typewriter.effectDue s = false ->
                     cycleText s = Typewriter.text (Typewriter.props s)).
  { intros Hdue. destruct Hinv as [_ Hlive]. unfold cycleText.
    destruct (Typewriter.hasCleanup s); [|reflexivity].
    destruct Hlive as (e & He & _ & _ & Htext & _).
    rewrite He. exact (Htext Hdue). }
  split; [apply slice_to_prefix|]. split; [exact Hbound|]. split.
  - intros Hdue. split; [exact (Hsettled Hdue)|].
    rewrite <- (Hsettled Hdue). exact Hbound.
  - intros id s' Hstep.
    destruct (fire_result cfg s s' id Hinv Hstep)
      as (e & Hlast & Hclean & _ & _ & _ & Hcount).
    unfold cycleText. now rewrite Hclean, Hlast.
Qed.

Lemma typewriter_count_within_text_witness :
  let p := {| Typewriter.text := "abc"; Typewriter.isPlaying := true;
              Typewriter.punctuationDelay := false |} in
  let q := {| Typewriter.text := "a"; Typewriter.isPlaying := true;
              Typewriter.punctuationDelay := false |} in
  let s0 := Typewriter.typeNext CONFIG 0
              (Typewriter.clearTimeout 2
                 (Typewriter.typeNext CONFIG 0
                    (Typewriter.clearTimeout 1
                       (Typewriter.runEffect (Typewriter.mount p))))) in
  let s := Typewriter.render q s0 in
  (Typewriter.run CONFIG
     [Typewriter.RunEffect; Typewriter.Fire 1; Typewriter.Fire 2]
     (Typewriter.mount p) = Some s0
   /\ Typewriter.effectDue s0 = false
   /\ (Typewriter.visibleChars s0
       <= String.length (Typewriter.text (Typewriter.props s0)))%nat)
  /\ Typewriter.run CONFIG
       [Typewriter.RunEffect; Typewriter.Fire 1; Typewriter.Fire 2;
        Typewriter.Render q]
       (Typewriter.mount p) = Some s
  /\ cycleText s = "abc"%string
  /\ (Typewriter.visibleChars s <= String.length (cycleText s))%nat
  /\ Typewriter.visibleChars s = 2%nat
  /\ option_map Typewriter.visibleChars
       (Typewriter.step CONFIG (Typewriter.Fire 3) s) = Some 3%nat.
Proof.
  intros p q s0 s.
  assert (Hrun0 : Typewriter.run CONFIG
                    [Typewriter.RunEffect; Typewriter.Fire 1; Typewriter.Fire 2]
                    (Typewriter.mount p) = Some s0)
    by (vm_compute; reflexivity).
  assert (Hdue0 : Typewriter.effectDue s0 = false) by (vm_compute; reflexivity).
  pose proof (typewriter_count_within_text CONFIG p _ s0 Hrun0)
    as (_ & _ & Hsettled & _).
  assert (Hrun : Typewriter.run CONFIG
                   [Typewriter.RunEffect; Typewriter.Fire 1; Typewriter.Fire 2;
                    Typewriter.Render q]
                   (Typewriter.mount p) = Some s) by (vm_compute; reflexivity).
  pose proof (typewriter_count_within_text CONFIG p _ s Hrun)
    as (_ & Hbound & _ & Hstep).
  assert (Hcycle : cycleText s = "abc"%string) by (vm_compute; reflexivity).
  assert (Hcount : Typewriter.visibleChars s = 2%nat)
    by (vm_compute; reflexivity).
  split; [split; [exact Hrun0|]; split; [exact Hdue0|];
          exact (proj2 (Hsettled Hdue0))|].
  split; [exact Hrun|]. split; [exact Hcycle|]. split; [exact Hbound|].
  split; [exact Hcount|].
  destruct (Typewriter.step CONFIG (Typewriter.Fire 3) s) as [s'|] eqn:Hfire;
    [|vm_compute in Hfire; discriminate].
  cbn [option_map]. f_equal.
  rewrite (Hstep 3%nat s' Hfire), Hcycle, Hcount. reflexivity.
Defined.

(** With the empty text the effect still schedules its first step; when
    that step fires [typeNext] returns at its first test and the count
    stays 0. *)
Lemma typewriter_empty_text_step_adds_nothing :
  exists s s',
    Typewriter.run CONFIG [Typewriter.RunEffect]
      (Typewriter.mount {| Typewriter.text := EmptyString;
                           Typewriter.isPlaying := true;
                           Typewriter.punctuationDelay := false |}) = Some s
    /\ Typewriter.step CONFIG (Typewriter.Fire 1) s = Some s'
    /\ Typewriter.visibleChars s = 0%nat
    /\ Typewriter.visibleChars s' = 0%nat
    /\ Typewriter.visibleChars s' <> S (Typewriter.visibleChars s).
Proof.
  eexists. eexists. split; [reflexivity|]. split; [reflexivity|].
  cbn. repeat split. discriminate.
Qed.

(** The two places where the count leaves the claim.  With the empty text
    the one scheduled step fires and adds nothing.  And when the text "abc"
    has been typed and the component is rendered with the text "a", the
    count is still 3, above the length of the text now shown, until the
    effect runs again. *)
Lemma typewriter_count_leaves_the_claim :
  (exists s s',
      Typewriter.run CONFIG [Typewriter.RunEffect]
        (Typewriter.mount {| Typewriter.text := EmptyString;
                             Typewriter.isPlaying := true;
                             Typewriter.punctuationDelay := false |}) = Some s
      /\ Typewriter.step CONFIG (Typewriter.Fire 1) s = Some s'
      /\ Typewriter.visibleChars s' = Typewriter.visibleChars s
      /\ Typewriter.visibleChars s' <> S (Typewriter.visibleChars s))
  /\ (exists s,
        Typewriter.run CONFIG
          [Typewriter.RunEffect; Typewriter.Fire 1; Typewriter.Fire 2;
           Typewriter.Fire 3;
           Typewriter.Render {| Typewriter.text := "a";
                                Typewriter.isPlaying := true;
                                Typewriter.punctuationDelay := false |}]
          (Typewriter.mount {| Typewriter.text := "abc";
                               Typewriter.isPlaying := true;
                               Typewriter.punctuationDelay := false |})
        = Some s
        /\ Typewriter.visibleChars s = 3%nat
        /\ String.length (Typewriter.text (Typewriter.props s)) = 1%nat
        /\ ~ (Typewriter.visibleChars s
              <= String.length (Typewriter.text (Typewriter.props s)))%nat).
Proof.
  split.
  - eexists. eexists. split; [reflexivity|]. split; [reflexivity|].
    cbn. split; [reflexivity | discriminate].
  - eexists. split; [vm_compute; reflexivity|].
    vm_compute. repeat split. lia.
Qed.

(* ================================================================== *)
(** * Further properties of the presets and the showcase               *)
(* ================================================================== *)

(* ------------------------------------------------------------------ *)
(** ** Tokens                                                          *)
(* ------------------------------------------------------------------ *)

Lemma split_not_nil (sep : ascii) (s : string) : JS.split sep s <> [].
Proof.
  destruct s as [|c s]; cbn [JS.split]; [discriminate|].
  destruct (Ascii.eqb c sep); [discriminate|].
  destruct (JS.split sep s); discriminate.
Qed.

Lemma split_pieces_without_sep (sep : ascii) (s : string) :
  Forall (fun w => ~ In sep (list_ascii_of_string w)) (JS.split sep s).
Proof.
  induction s as [|c s IH]; cbn [JS.split].
  - constructor; [intros []| constructor].
  - destruct (Ascii.eqb_spec c sep) as [->|Hne].
    + constructor; [intros []| exact IH].
    + destruct (JS.split sep s) as [|w ws]; [constructor; [|constructor]|].
      * cbn. intros [H|[]]. now apply Hne.
      * inversion IH as [|? ? Hw Hws]; subst. constructor; [|exact Hws].
        cbn. intros [H|H]; [now apply Hne | now apply Hw].
Qed.

Lemma nonempty_positive_length (w : string) :
  (0 <? String.length w)%nat = true <-> w <> EmptyString.
Proof.
  destruct w; cbn; split; intros H; try discriminate; try reflexivity.
  now elim H.
Qed.

(** X1.  Every token of [splitWords] is a word: it is not empty and holds
    no space. *)
Theorem splitWords_yields_words :
  forall text w, In w (splitWords text) -> isWord w.
Proof.
  intros text w Hin. unfold splitWords in Hin.
  apply filter_In in Hin. destruct Hin as [Hin Hlen]. split.
  - now apply nonempty_positive_length.
  - pose proof (split_pieces_without_sep " " text) as Hall.
    rewrite Forall_forall in Hall. now apply Hall.
Qed.

Lemma splitWords_yields_words_witness :
  In "be"%string (splitWords " to  be or ") /\ isWord "be".
Proof.
  assert (H : In "be"%string (splitWords " to  be or "))
    by (cbn; right; left; reflexivity).
  split; [exact H|].
  exact (splitWords_yields_words " to  be or " "be" H).
Defined.

Lemma split_append_sep (sep : ascii) (a b : string) :
  JS.split sep (a ++ String sep b) = JS.split sep a ++ JS.split sep b.
Proof.
  induction a as [|c a IH].
  - cbn [String.append JS.split]. now rewrite Ascii.eqb_refl.
  - cbn [String.append JS.split]. rewrite IH.
    destruct (Ascii.eqb c sep); [reflexivity|].
    pose proof (split_not_nil sep a) as Hne.
    destruct (JS.split sep a) as [|w ws]; [now elim Hne | reflexivity].
Qed.

Lemma splitWords_spaced (a b : string) :
  splitWords (a ++ " " ++ b) = splitWords a ++ splitWords b.
Proof.
  unfold splitWords.
  change (" " ++ b)%string with (String " " b).
  now rewrite split_append_sep, filter_app.
Qed.

(** X2.  Putting a space between two texts concatenates their tokens:
    tokenizing never joins or breaks a word across that space.  A space in
    front of a text or behind it changes nothing. *)
Theorem splitWords_of_spaced_texts :
  forall a b,
    splitWords (a ++ " " ++ b) = splitWords a ++ splitWords b
    /\ splitWords (" " ++ a) = splitWords a
    /\ splitWords (a ++ " ") = splitWords a.
Proof.
  intros a b. split; [apply splitWords_spaced|]. split.
  - exact (splitWords_spaced EmptyString a).
  - change (a ++ " ")%string with (a ++ " " ++ EmptyString)%string.
    rewrite splitWords_spaced. apply app_nil_r.
Qed.

Lemma split_word (w : string) :
  ~ In " "%char (list_ascii_of_string w) -> JS.split " " w = [w].
Proof.
  induction w as [|c w IH]; intros Hno; [reflexivity|].
  cbn [JS.split].
  destruct (Ascii.eqb_spec c " ") as [->|Hne].
  - elim Hno. now left.
  - rewrite IH; [reflexivity|]. intros Hin. apply Hno. now right.
Qed.

Lemma splitWords_word (w : string) : isWord w -> splitWords w = [w].
Proof.
  intros [Hne Hno]. unfold splitWords. rewrite (split_word w Hno).
  cbn [filter]. now rewrite (proj2 (nonempty_positive_length w) Hne).
Qed.

Lemma splitWords_joined_words (ws : list string) :
  Forall isWord ws -> splitWords (String.concat " " ws) = ws.
Proof.
  induction ws as [|w ws IH]; intros Hall; [reflexivity|].
  inversion Hall as [|? ? Hw Hws]; subst.
  destruct ws as [|x ws]; [now apply splitWords_word|].
  change (String.concat " " (w :: x :: ws))
    with (w ++ " " ++ String.concat " " (x :: ws))%string.
  rewrite splitWords_spaced, (splitWords_word w Hw), (IH Hws).
  reflexivity.
Qed.

Lemma joined_tokens_collapse (text : string) :
  String.concat " " (splitWords text) = collapseSpaces text.
Proof.
  pose proof (collapseScan_split text) as H.
  unfold splitWords, collapseSpaces.
  destruct (JS.split " " text) as [|w ws]; [contradiction|].
  destruct H as (_ & _ & Hstart). cbv zeta in Hstart. now rewrite Hstart.
Qed.

(** X3.  Joining words with single spaces and tokenizing again gives the
    words back; so tokenizing the joined tokens of a text, or its collapsed
    form, yields the tokens of the text. *)
Theorem splitWords_round_trip :
  forall ws text,
    Forall isWord ws ->
    splitWords (String.concat " " ws) = ws
    /\ splitWords (String.concat " " (splitWords text)) = splitWords text
    /\ splitWords (collapseSpaces text) = splitWords text.
Proof.
  intros ws text Hws.
  assert (Htok : Forall isWord (splitWords text)).
  { apply Forall_forall. intros w Hw.
    unfold splitWords in Hw. apply filter_In in Hw. destruct Hw as [Hin Hlen].
    split; [now apply nonempty_positive_length|].
    pose proof (split_pieces_without_sep " " text) as Hall.
    rewrite Forall_forall in Hall. now apply Hall. }
  split; [now apply splitWords_joined_words|].
  split.
  - now apply splitWords_joined_words.
  - rewrite <- joined_tokens_collapse. now apply splitWords_joined_words.
Qed.

Lemma splitWords_round_trip_witness :
  Forall isWord ["to"; "be,"; "or"]%string
  /\ splitWords (String.concat " " ["to"; "be,"; "or"]%string)
     = ["to"; "be,"; "or"]%string.
Proof.
  assert (H : Forall isWord ["to"; "be,"; "or"]%string).
  { repeat constructor; try discriminate; cbn; intros Hin;
      repeat (destruct Hin as [Hin|Hin]; [discriminate|]); exact Hin. }
  split; [exact H|].
  exact (proj1 (splitWords_round_trip ["to"; "be,"; "or"]%string
                  EmptyString H)).
Defined.

(** X4.  Character mode loses nothing: there is one token per code unit,
    each of length one, and the tokens put end to end are the text. *)
Theorem splitChars_round_trip :
  forall text,
    List.length (splitChars text) = String.length text
    /\ Forall (fun ch => String.length ch = 1%nat) (splitChars text)
    /\ String.concat EmptyString (splitChars text) = text.
Proof.
  intros text. unfold splitChars.
  induction text as [|c text (Hlen & Hone & Hcat)]; [repeat split; constructor|].
  cbn [JS.split_units]. split; [|split].
  - cbn. now rewrite Hlen.
  - constructor; [reflexivity | exact Hone].
  - destruct (JS.split_units text) as [|x xs] eqn:Hx.
    + cbn in Hcat |- *. now rewrite <- Hcat.
    + change (String.concat EmptyString (String c EmptyString :: x :: xs))
        with (String c EmptyString ++ EmptyString
              ++ String.concat EmptyString (x :: xs))%string.
      rewrite Hcat. reflexivity.
Qed.

(* ------------------------------------------------------------------ *)
(** ** Delay plans                                                     *)
(* ------------------------------------------------------------------ *)

Lemma charDelaysBody_unfold (cfg : Config) (staggerMs : Z) (delays : list Z)
  (c : Z) (ch : string) :
  charDelaysBody cfg staggerMs (delays, c) ch
  = (delays ++ [c], c + staggerMs + pauseAfter cfg ch).
Proof.
  unfold charDelaysBody, pauseAfter.
  destruct (JS.includes ".!?" ch); [reflexivity|].
  destruct (String.eqb ch ","); f_equal; lia.
Qed.

Lemma slice_last_unit (ch : string) :
  (String.length ch <= 1)%nat -> JS.slice_last ch = ch.
Proof.
  destruct ch as [|c [|c' ch]]; cbn; intros H; try reflexivity. lia.
Qed.

Lemma fold_charDelaysBody (cfg : Config) (staggerMs : Z) (chars : list string) :
  Forall (fun ch => (String.length ch <= 1)%nat) chars ->
  forall st,
    fold_left (charDelaysBody cfg staggerMs) chars st
    = fold_left (wordDelaysBody cfg staggerMs) chars st.
Proof.
  induction 1 as [|ch chars Hch _ IH]; intros [delays c]; [reflexivity|].
  cbn [fold_left].
  rewrite charDelaysBody_unfold, wordDelaysBody_unfold, (slice_last_unit ch Hch).
  apply IH.
Qed.

Lemma split_units_are_units (text : string) :
  Forall (fun ch => (String.length ch <= 1)%nat) (JS.split_units text).
Proof.
  induction text as [|c text IH]; cbn [JS.split_units]; constructor;
    [cbn; lia | exact IH].
Qed.

(** X5.  On the characters of a text the character scheduler and the word
    scheduler are the same function: a one-unit token is its own last
    unit. *)
Theorem char_scheduler_is_word_scheduler :
  forall cfg text staggerMs punctDelay,
    computeCharDelays cfg (splitChars text) staggerMs punctDelay
    = computeWordDelays cfg (splitChars text) staggerMs punctDelay.
Proof.
  intros cfg text staggerMs punctDelay.
  unfold computeCharDelays, computeWordDelays.
  destruct punctDelay; cbn [negb]; [|reflexivity].
  now rewrite (fold_charDelaysBody cfg staggerMs _ (split_units_are_units text)).
Qed.

Lemma fold_charDelaysBody_length (cfg : Config) (staggerMs : Z)
  (chars : list string) :
  forall delays c,
    List.length (fst (fold_left (charDelaysBody cfg staggerMs) chars (delays, c)))
    = (List.length delays + List.length chars)%nat.
Proof.
  induction chars as [|ch chars IH]; intros delays c.
  - cbn. lia.
  - cbn [fold_left]. rewrite charDelaysBody_unfold, IH, length_app. cbn. lia.
Qed.

(** X6.  Every scheduler returns exactly one delay per token, so the
    [delays[i]] a row hands to its [i]-th token is always defined. *)
Theorem every_token_has_a_delay :
  forall cfg tokens staggerMs punctDelay,
    List.length (computeWordDelays cfg tokens staggerMs punctDelay)
    = List.length tokens
    /\ List.length (computeCharDelays cfg tokens staggerMs punctDelay)
       = List.length tokens
    /\ List.length (computeSplitDelays cfg tokens punctDelay)
       = List.length tokens.
Proof.
  intros cfg tokens staggerMs punctDelay.
  split; [apply computeWordDelays_length|]. split.
  - unfold computeCharDelays. destruct punctDelay; cbn [negb].
    + now rewrite fold_charDelaysBody_length.
    + apply mapi_from_length.
  - apply computeSplitDelays_length.
Qed.

Lemma offsetsFrom_shift (cfg : Config) (staggerMs : Z) (words : list string) :
  forall c,
    offsetsFrom cfg staggerMs c words
    = map (fun d => d + c) (offsetsFrom cfg staggerMs 0 words).
Proof.
  induction words as [|w words IH]; intros c; [reflexivity|].
  cbn [offsetsFrom map]. f_equal.
  rewrite (IH (c + staggerMs + pauseAfter cfg (JS.slice_last w))).
  rewrite (IH (0 + staggerMs + pauseAfter cfg (JS.slice_last w))).
  rewrite map_map. apply map_ext. intros d. lia.
Qed.

Lemma offsetsFrom_app (cfg : Config) (staggerMs : Z) (ws more : list string) :
  forall c,
    offsetsFrom cfg staggerMs c (ws ++ more)
    = offsetsFrom cfg staggerMs c ws
      ++ offsetsFrom cfg staggerMs
           (c + Z.of_nat (List.length ws) * staggerMs
            + pausesBefore cfg ws (List.length ws)) more.
Proof.
  induction ws as [|w ws IH]; intros c.
  - cbn. f_equal. unfold pausesBefore. cbn. lia.
  - cbn [app offsetsFrom List.length]. f_equal. rewrite IH. f_equal. f_equal.
    rewrite pausesBefore_cons. lia.
Qed.

Lemma mapi_from_app {A B : Type} (f : A -> nat -> B) (xs ys : list A) :
  forall k,
    JS.mapi_from f k (xs ++ ys)
    = JS.mapi_from f k xs ++ JS.mapi_from f (k + List.length xs) ys.
Proof.
  induction xs as [|x xs IH]; intros k.
  - cbn. now rewrite Nat.add_0_r.
  - cbn [app JS.mapi_from List.length]. f_equal. rewrite IH.
    do 2 f_equal. lia.
Qed.

Lemma plain_from_shift (staggerMs : Z) (words : list string) :
  forall k,
    JS.mapi_from (fun _ i => Z.of_nat i * staggerMs) k words
    = map (fun d => d + Z.of_nat k * staggerMs)
        (JS.mapi_from (fun _ i => Z.of_nat i * staggerMs) 0 words).
Proof.
  induction words as [|w words IH]; intros k; [reflexivity|].
  cbn [JS.mapi_from map]. f_equal.
  rewrite (IH (S k)), (IH 1%nat), map_map.
  apply map_ext. intros d. lia.
Qed.

(** X7.  Scheduling a longer token list never moves the tokens already
    there: the plan of [ws ++ more] is the plan of [ws] followed by the
    plan of [more] moved by the staggers of [ws] and, with pausing on, by
    all the pauses of [ws]. *)
Theorem delays_of_appended_tokens :
  forall cfg ws more staggerMs punctDelay,
    computeWordDelays cfg (ws ++ more) staggerMs punctDelay
    = computeWordDelays cfg ws staggerMs punctDelay
      ++ map (fun d =>
                d + (Z.of_nat (List.length ws) * staggerMs
                     + if punctDelay
                       then pausesBefore cfg ws (List.length ws)
                       else 0))
           (computeWordDelays cfg more staggerMs punctDelay).
Proof.
  intros cfg ws more staggerMs punctDelay. destruct punctDelay.
  - rewrite !computeWordDelays_paused, offsetsFrom_app. f_equal.
    rewrite offsetsFrom_shift. apply map_ext. intros d. lia.
  - unfold computeWordDelays, JS.mapi. cbn [negb].
    rewrite mapi_from_app, Nat.add_0_l. f_equal.
    rewrite plain_from_shift. apply map_ext. intros d. lia.
Qed.

Lemma pausesBefore_nonneg (cfg : Config) (words : list string) :
  0 <= punctPauseLong cfg ->
  0 <= punctPauseShort cfg ->
  forall i, 0 <= pausesBefore cfg words i.
Proof.
  intros Hl Hs. induction words as [|w words IH]; intros i.
  - unfold pausesBefore. destruct i; cbn; lia.
  - destruct i as [|i]; [unfold pausesBefore; cbn; lia|].
    rewrite pausesBefore_cons.
    pose proof (pauseAfter_nonneg cfg Hl Hs (JS.slice_last w)).
    specialize (IH i). lia.
Qed.

Lemma offsetsFrom_without_pauses (cfg : Config) (staggerMs : Z)
  (words : list string) :
  Forall (fun w => JS.includes ".!?" (JS.slice_last w) = false
                   /\ String.eqb (JS.slice_last w) "," = false) words ->
  forall k,
    offsetsFrom cfg staggerMs (Z.of_nat k * staggerMs) words
    = JS.mapi_from (fun _ i => Z.of_nat i * staggerMs) k words.
Proof.
  induction 1 as [|w words [Hmark Hcomma] _ IH]; intros k; [reflexivity|].
  cbn [offsetsFrom JS.mapi_from]. f_equal.
  rewrite <- (IH (S k)). f_equal.
  unfold pauseAfter. rewrite Hmark, Hcomma. lia.
Qed.

(** X8.  Punctuation pausing only ever postpones: with non-negative pauses
    no token starts earlier than it does without pausing, and when no
    token ends in one of [. ! ? ,] the two plans are equal. *)
Theorem pausing_only_postpones :
  forall cfg words staggerMs,
    0 <= punctPauseLong cfg ->
    0 <= punctPauseShort cfg ->
    (forall i a b,
        nth_error (computeWordDelays cfg words staggerMs true) i = Some a ->
        nth_error (computeWordDelays cfg words staggerMs false) i = Some b ->
        b <= a)
    /\ (Forall (fun w => JS.includes ".!?" (JS.slice_last w) = false
                         /\ String.eqb (JS.slice_last w) "," = false) words ->
        computeWordDelays cfg words staggerMs true
        = computeWordDelays cfg words staggerMs false).
Proof.
  intros cfg words staggerMs Hl Hs. split.
  - intros i a b Ha Hb.
    rewrite computeWordDelays_paused, offsetsFrom_closed_form in Ha.
    apply mapi_from_nth_error_inv in Ha. destruct Ha as (w & Hw & ->).
    unfold computeWordDelays, JS.mapi in Hb. cbn [negb] in Hb.
    apply mapi_from_nth_error_inv in Hb. destruct Hb as (w' & _ & ->).
    pose proof (pausesBefore_nonneg cfg words Hl Hs (0 + i)). lia.
  - intros Hnone. rewrite computeWordDelays_paused.
    exact (offsetsFrom_without_pauses cfg staggerMs words Hnone 0).
Qed.

Lemma pausing_only_postpones_witness :
  0 <= punctPauseLong CONFIG
  /\ 0 <= punctPauseShort CONFIG
  /\ Forall (fun w => JS.includes ".!?" (JS.slice_last w) = false
                      /\ String.eqb (JS.slice_last w) "," = false)
       ["Make"; "words"; "pop"]%string
  /\ computeWordDelays CONFIG ["Make"; "words"; "pop"]%string 80 true
     = computeWordDelays CONFIG ["Make"; "words"; "pop"]%string 80 false.
Proof.
  assert (Hl : 0 <= punctPauseLong CONFIG) by (simpl; lia).
  assert (Hs : 0 <= punctPauseShort CONFIG) by (simpl; lia).
  assert (Hnone : Forall (fun w => JS.includes ".!?" (JS.slice_last w) = false
                                   /\ String.eqb (JS.slice_last w) "," = false)
                    ["Make"; "words"; "pop"]%string)
    by (repeat constructor).
  split; [exact Hl|]. split; [exact Hs|]. split; [exact Hnone|].
  exact (proj2 (pausing_only_postpones CONFIG ["Make"; "words"; "pop"]%string
                  80 Hl Hs) Hnone).
Defined.

Lemma chain_lower_bound (staggerMs : Z) (delays : list Z) :
  0 <= staggerMs ->
  chain staggerMs delays ->
  forall x, hd_error delays = Some x -> forall d, In d delays -> x <= d.
Proof.
  intros Hs. induction delays as [|a delays IH]; intros Hc x Hx d Hd.
  - destruct Hd.
  - cbn in Hx. injection Hx as <-.
    destruct Hd as [<-|Hd]; [lia|].
    destruct delays as [|b delays]; [destruct Hd|].
    destruct Hc as (Hab & _ & Hrest).
    specialize (IH Hrest b eq_refl d Hd). lia.
Qed.

Lemma splitIndex_positive (count : nat) :
  (0 < count)%nat -> (0 < splitIndex count <= count)%nat.
Proof. pose proof (splitIndex_ceiling count). lia. Qed.

Lemma computeSplitDelays_shape (cfg : Config) (words : list string) (pd : bool) :
  computeSplitDelays cfg words pd
  = computeWordDelays cfg (firstn (splitIndex (List.length words)) words) 100 pd
    ++ map (fun d =>
              d + (last (computeWordDelays cfg
                           (firstn (splitIndex (List.length words)) words)
                           100 pd) 0 + 100) + 400)
         (computeWordDelays cfg (skipn (splitIndex (List.length words)) words)
            100 pd).
Proof.
  unfold computeSplitDelays.
  set (k := splitIndex (List.length words)).
  set (g1 := computeWordDelays cfg (firstn k words) 100 pd).
  f_equal.
  destruct (0 <? List.length g1)%nat eqn:Hlen.
  - now rewrite nth_pred_length_last.
  - apply Nat.ltb_ge in Hlen.
    assert (Hg1 : List.length g1 = 0%nat) by lia.
    unfold g1 in Hg1. rewrite computeWordDelays_length, length_firstn in Hg1.
    destruct words as [|w words]; [destruct pd; reflexivity|].
    pose proof (splitIndex_positive (List.length (w :: words))) as Hk.
    fold k in Hk. simpl List.length in Hg1, Hk. lia.
Qed.

Lemma computeWordDelays_hd (cfg : Config) (words : list string)
  (staggerMs : Z) (pd : bool) :
  words <> [] ->
  hd_error (computeWordDelays cfg words staggerMs pd) = Some 0.
Proof.
  intros Hne. destruct words as [|w words]; [contradiction|].
  destruct pd.
  - now rewrite computeWordDelays_paused.
  - reflexivity.
Qed.

(** X9.  Plans start at zero and never go below it: for a non-negative
    stagger and non-negative pauses the first token of a non-empty list
    has delay 0 and every delay is non-negative, in the plain plan, the
    paused plan and the split plan. *)
Theorem delays_start_at_zero :
  forall cfg words staggerMs punctDelay,
    0 <= staggerMs ->
    0 <= punctPauseLong cfg ->
    0 <= punctPauseShort cfg ->
    (forall d, In d (computeWordDelays cfg words staggerMs punctDelay) -> 0 <= d)
    /\ (forall d, In d (computeSplitDelays cfg words punctDelay) -> 0 <= d)
    /\ (words <> [] ->
        hd_error (computeWordDelays cfg words staggerMs punctDelay) = Some 0
        /\ hd_error (computeSplitDelays cfg words punctDelay) = Some 0).
Proof.
  intros cfg words staggerMs pd Hs Hl Hsh.
  assert (Hsplit_hd : words <> [] ->
                      hd_error (computeSplitDelays cfg words pd) = Some 0).
  { intros Hne. rewrite computeSplitDelays_shape.
    assert (Hg1 : firstn (splitIndex (List.length words)) words <> []).
    { destruct words as [|w words]; [contradiction|].
      pose proof (splitIndex_positive (List.length (w :: words))) as Hk.
      destruct (splitIndex (List.length (w :: words)));
        [simpl in Hk; lia | discriminate]. }
    pose proof (computeWordDelays_hd cfg _ 100 pd Hg1) as Hhd.
    destruct (computeWordDelays cfg
                (firstn (splitIndex (List.length words)) words) 100 pd);
      [discriminate | exact Hhd]. }
  split; [|split].
  - intros d Hd. destruct words as [|w words].
    + destruct pd; cbn in Hd; contradiction.
    + apply (chain_lower_bound staggerMs _ Hs
               (computeWordDelays_chain cfg Hl Hsh (w :: words) staggerMs pd Hs)
               0); [|exact Hd].
      apply computeWordDelays_hd. discriminate.
  - intros d Hd. destruct words as [|w words].
    + destruct pd; cbn in Hd; contradiction.
    + apply (chain_lower_bound 100 _ ltac:(lia)
               (computeSplitDelays_chain cfg Hl Hsh (w :: words) pd) 0);
        [|exact Hd].
      apply Hsplit_hd. discriminate.
  - intros Hne. split; [now apply computeWordDelays_hd | now apply Hsplit_hd].
Qed.

Lemma delays_start_at_zero_witness :
  0 <= 100
  /\ 0 <= punctPauseLong CONFIG
  /\ 0 <= punctPauseShort CONFIG
  /\ ["Wait,"; "stop."; "Go"; "now"]%string <> []
  /\ hd_error
       (computeSplitDelays CONFIG ["Wait,"; "stop."; "Go"; "now"]%string true)
     = Some 0.
Proof.
  assert (Hs : 0 <= 100) by lia.
  assert (Hl : 0 <= punctPauseLong CONFIG) by (simpl; lia).
  assert (Hsh : 0 <= punctPauseShort CONFIG) by (simpl; lia).
  assert (Hne : ["Wait,"; "stop."; "Go"; "now"]%string <> []) by discriminate.
  split; [exact Hs|]. split; [exact Hl|]. split; [exact Hsh|].
  split; [exact Hne|].
  exact (proj2 (proj2 (proj2 (delays_start_at_zero CONFIG
                                ["Wait,"; "stop."; "Go"; "now"]%string 100 true
                                Hs Hl Hsh)) Hne)).
Defined.

Lemma nth_error_last {A : Type} (l : list A) (d : A) :
  l <> [] -> nth_error l (List.length l - 1) = Some (last l d).
Proof.
  intros Hne.
  rewrite <- (nth_pred_length_last l d).
  apply nth_error_nth'. destruct l; [contradiction | simpl; lia].
Qed.

(** X10.  The pause of Split Timing exists from three words on.  With one
    or two words the split plan is the ordinary plan at stagger 100; with
    three or more, the second group is not empty and its first word starts
    exactly 500 ms after the last word of the first group, whatever that
    word ends in. *)
Theorem split_timing_gap :
  forall cfg words pDelay,
    ((List.length words <= 2)%nat ->
     computeSplitDelays cfg words pDelay
     = computeWordDelays cfg words 100 pDelay)
    /\ ((3 <= List.length words)%nat ->
        (2 <= splitIndex (List.length words) < List.length words)%nat
        /\ exists a,
            nth_error (computeSplitDelays cfg words pDelay)
              (splitIndex (List.length words) - 1) = Some a
            /\ nth_error (computeSplitDelays cfg words pDelay)
                 (splitIndex (List.length words)) = Some (a + 500)).
Proof.
  intros cfg words pDelay.
  pose proof (splitIndex_ceiling (List.length words)) as Hk.
  rewrite computeSplitDelays_shape.
  set (k := splitIndex (List.length words)) in *.
  split.
  - intros Hn. assert (Hkn : k = List.length words) by lia.
    rewrite Hkn, firstn_all, skipn_all.
    replace (computeWordDelays cfg [] 100 pDelay) with (@nil Z)
      by (destruct pDelay; reflexivity).
    apply app_nil_r.
  - intros Hn. split; [lia|].
    set (g1 := computeWordDelays cfg (firstn k words) 100 pDelay).
    assert (Hlen1 : List.length g1 = k).
    { unfold g1. rewrite computeWordDelays_length, length_firstn. lia. }
    assert (Hne1 : g1 <> []) by (intros Heq; rewrite Heq in Hlen1; simpl in Hlen1; lia).
    assert (Hne2 : skipn k words <> []).
    { intros Heq. apply (f_equal (@List.length string)) in Heq.
      rewrite length_skipn in Heq. simpl in Heq. lia. }
    pose proof (computeWordDelays_hd cfg _ 100 pDelay Hne2) as Hhd.
    exists (last g1 0). split.
    + rewrite nth_error_app1 by lia. rewrite <- Hlen1.
      now apply nth_error_last.
    + rewrite nth_error_app2 by lia. rewrite Hlen1, Nat.sub_diag.
      destruct (computeWordDelays cfg (skipn k words) 100 pDelay) as [|d g2];
        [discriminate|].
      cbn in Hhd |- *. injection Hhd as ->. f_equal. lia.
Qed.

Lemma split_timing_gap_witness :
  (3 <= List.length ["Rhythm"; "defines."; "how"; "we"; "read"]%string)%nat
  /\ exists a,
      nth_error
        (computeSplitDelays CONFIG
           ["Rhythm"; "defines."; "how"; "we"; "read"]%string true) 2 = Some a
      /\ nth_error
           (computeSplitDelays CONFIG
              ["Rhythm"; "defines."; "how"; "we"; "read"]%string true) 3
         = Some (a + 500).
Proof.
  assert (H : (3 <= List.length
                      ["Rhythm"; "defines."; "how"; "we"; "read"]%string)%nat)
    by (simpl; lia).
  split; [exact H|].
  exact (proj2 (proj2 (split_timing_gap CONFIG
                         ["Rhythm"; "defines."; "how"; "we"; "read"]%string
                         true) H)).
Defined.

(* ------------------------------------------------------------------ *)
(** ** The Skew Pop row                                                *)
(* ------------------------------------------------------------------ *)

Lemma map_mapi_from {A B C : Type} (g : B -> C) (f : A -> nat -> B)
  (xs : list A) :
  forall k,
    map g (JS.mapi_from f k xs) = JS.mapi_from (fun x i => g (f x i)) k xs.
Proof.
  induction xs as [|x xs IH]; intros k; [reflexivity|].
  cbn [JS.mapi_from map]. now rewrite IH.
Qed.

Lemma mapi_from_lookup {A B : Type} (d : B) (xs : list A) :
  forall (l : list B) k,
    (k + List.length xs <= List.length l)%nat ->
    JS.mapi_from (fun _ i => nth i l d) k xs
    = firstn (List.length xs) (skipn k l).
Proof.
  induction xs as [|x xs IH]; intros l k Hlen; [reflexivity|].
  cbn [JS.mapi_from List.length] in *.
  rewrite (IH l (S k)) by lia.
  assert (Hk : (k < List.length l)%nat) by lia.
  clear IH Hlen. revert k Hk.
  induction l as [|y l IHl]; intros k Hk; [simpl in Hk; lia|].
  destruct k as [|k]; [reflexivity|].
  cbn [nth skipn]. apply IHl. simpl in Hk. lia.
Qed.

Lemma mapi_from_fst {A : Type} (xs : list A) :
  forall k, JS.mapi_from (fun x _ => x) k xs = xs.
Proof.
  induction xs as [|x xs IH]; intros k; [reflexivity|].
  cbn [JS.mapi_from]. now rewrite IH.
Qed.

(** X11.  The Skew Pop row is the token list annotated with the plan: its
    words are the tokens of the text in order, the delay of the [i]-th
    word is the [i]-th delay of the plan at stagger 80, and every word
    carries the row's play flag. *)
Theorem skew_pop_row_follows_plan :
  forall cfg text playing punctDelay,
    map SkewPop.word (SkewPop.SkewPop cfg text playing punctDelay)
    = splitWords text
    /\ map SkewPop.delay (SkewPop.SkewPop cfg text playing punctDelay)
       = computeWordDelays cfg (splitWords text) 80 punctDelay
    /\ Forall (fun p => SkewPop.isPlaying p = playing)
         (SkewPop.SkewPop cfg text playing punctDelay).
Proof.
  intros cfg text playing punctDelay. unfold SkewPop.SkewPop, JS.mapi.
  split; [|split].
  - rewrite map_mapi_from. cbn [SkewPop.word]. apply mapi_from_fst.
  - rewrite map_mapi_from. cbn [SkewPop.delay].
    rewrite mapi_from_lookup
      by (rewrite computeWordDelays_length; lia).
    cbn [skipn].
    rewrite <- (computeWordDelays_length cfg (splitWords text) 80 punctDelay).
    apply firstn_all.
  - apply Forall_forall. intros p Hp.
    apply In_nth_error in Hp. destruct Hp as [i Hi].
    apply mapi_from_nth_error_inv in Hi. now destruct Hi as (w & _ & ->).
Qed.

(* ------------------------------------------------------------------ *)
(** ** The width of the shimmer                                        *)
(* ------------------------------------------------------------------ *)

Lemma wordIntensity_positive (shimmerPos : Q) (index : nat) :
  (0 < Shimmer.wordIntensity shimmerPos index)%Q ->
  (Qabs (shimmerPos - inject_Z (Z.of_nat index)) < 5 # 4)%Q.
Proof.
  unfold Shimmer.wordIntensity. cbv zeta.
  set (d := Qabs (shimmerPos - inject_Z (Z.of_nat index))).
  intros Hpos.
  destruct (Qlt_le_dec d (5 # 4)) as [Hlt|Hge]; [exact Hlt|].
  exfalso.
  assert (Hle : (1 - d * (8 # 10) <= 0)%Q) by lra.
  rewrite (Q.max_l 0 (1 - d * (8 # 10)) Hle) in Hpos.
  now apply (Qlt_irrefl 0).
Qed.

(** X12.  The word shimmer is narrow: a word is tinted only while the wave
    is less than 1.25 positions away, so two words tinted at the same
    moment are at most two places apart (never more than three words at
    once). *)
Theorem word_shimmer_tints_neighbours_only :
  forall (shimmerPos : Q) (i j : nat),
    (0 < Shimmer.wordIntensity shimmerPos i)%Q ->
    (0 < Shimmer.wordIntensity shimmerPos j)%Q ->
    (Qabs (shimmerPos - inject_Z (Z.of_nat i)) < 5 # 4)%Q
    /\ (i <= j + 2)%nat /\ (j <= i + 2)%nat.
Proof.
  intros shimmerPos i j Hi Hj.
  pose proof (wordIntensity_positive shimmerPos i Hi) as Hdi.
  pose proof (wordIntensity_positive shimmerPos j Hj) as Hdj.
  split; [exact Hdi|].
  apply Qabs_Qlt_condition in Hdi. apply Qabs_Qlt_condition in Hdj.
  destruct Hdi as [Hi1 Hi2], Hdj as [Hj1 Hj2].
  assert (Hij : (inject_Z (Z.of_nat i) - inject_Z (Z.of_nat j) < 5 # 2)%Q) by lra.
  assert (Hji : (inject_Z (Z.of_nat j) - inject_Z (Z.of_nat i) < 5 # 2)%Q) by lra.
  unfold Qlt in Hij, Hji. cbn in Hij, Hji. lia.
Qed.

Lemma word_shimmer_tints_neighbours_only_witness :
  (0 < Shimmer.wordIntensity (3 # 2) 1)%Q
  /\ (0 < Shimmer.wordIntensity (3 # 2) 2)%Q
  /\ (1 <= 2 + 2)%nat.
Proof.
  assert (H1 : (0 < Shimmer.wordIntensity (3 # 2) 1)%Q) by reflexivity.
  assert (H2 : (0 < Shimmer.wordIntensity (3 # 2) 2)%Q) by reflexivity.
  split; [exact H1|]. split; [exact H2|].
  exact (proj1 (proj2 (word_shimmer_tints_neighbours_only (3 # 2) 1 2 H1 H2))).
Defined.

(** X13.  Letter Shimmer maps any text onto four positions: the sweep
    coordinate of a character is [4 * index / totalChars], so it lies in
    [0, 4) and grows strictly with the index. *)
Theorem letter_shimmer_coordinate_range :
  forall index totalChars : nat,
    (index < totalChars)%nat ->
    (0 <= Shimmer.charPos index totalChars)%Q
    /\ (Shimmer.charPos index totalChars < 4)%Q
    /\ (Shimmer.charPos index totalChars
        == (4 * Z.of_nat index # Pos.of_nat totalChars))%Q
    /\ (forall index', (index < index' < totalChars)%nat ->
                       (Shimmer.charPos index totalChars
                        < Shimmer.charPos index' totalChars)%Q).
Proof.
  intros index totalChars Hlt.
  assert (Hform : forall i, (Shimmer.charPos i totalChars
                             == (4 * Z.of_nat i # Pos.of_nat totalChars))%Q).
  { intros i. unfold Shimmer.charPos.
    destruct (Nat.ltb_spec 0 totalChars) as [Hpos|Hz]; [|lia].
    assert (Hne : ~ (inject_Z (Z.of_nat totalChars) == 0)%Q).
    { unfold Qeq. cbn. lia. }
    assert (Hq : ((4 * Z.of_nat i # Pos.of_nat totalChars)
                  == 4 * inject_Z (Z.of_nat i) / inject_Z (Z.of_nat totalChars))%Q).
    { unfold Qeq, Qdiv, Qmult, Qinv, inject_Z. cbn.
      destruct (Z.of_nat totalChars) as [|q|q] eqn:Hq; try lia.
      cbn. assert (Pos.of_nat totalChars = q) as -> by lia. lia. }
    rewrite Hq. field. exact Hne. }
  assert (HP : Z.pos (Pos.of_nat totalChars) = Z.of_nat totalChars) by lia.
  split; [|split; [|split]].
  - rewrite Hform. unfold Qle. cbn [Qnum Qden]. lia.
  - rewrite Hform. unfold Qlt. cbn [Qnum Qden]. lia.
  - apply Hform.
  - intros index' Hi. rewrite !Hform. unfold Qlt. cbn [Qnum Qden]. nia.
Qed.

Lemma letter_shimmer_coordinate_range_witness :
  (3 < 5)%nat /\ (Shimmer.charPos 3 5 < 4)%Q.
Proof.
  assert (H : (3 < 5)%nat) by lia.
  split; [exact H|].
  exact (proj1 (proj2 (letter_shimmer_coordinate_range 3 5 H))).
Defined.

(* ------------------------------------------------------------------ *)
(** ** The typewriter's timers                                         *)
(* ------------------------------------------------------------------ *)

(** The three ways a fired timer can leave the state: [typeNext] returns
    at once; it types the last character; it types a character and
    schedules the next step. *)
Lemma fire_shape (cfg : Config) (s s' : Typewriter.State) (id : nat) :
  typingInvariant s ->
  Typewriter.step cfg (Typewriter.Fire id) s = Some s' ->
  exists e,
    liveEnv s = Some e
    /\ Typewriter.timers s <> []
    /\ let k := (List.length (Typewriter.envs s) - 1)%nat in
       let e' := {| Typewriter.envText := Typewriter.envText e;
                    Typewriter.envPunctuationDelay :=
                      Typewriter.envPunctuationDelay e;
                    Typewriter.index := S (Typewriter.index e) |} in
       let typed :=
         Typewriter.setVisibleChars (S (Typewriter.index e))
           (Typewriter.setEnvs (Typewriter.setNth k e' (Typewriter.envs s))
              (Typewriter.setTimers [] s)) in
       (String.length (Typewriter.envText e) = 0%nat
        /\ s' = Typewriter.setTimers [] s)
       \/ (S (Typewriter.index e) = String.length (Typewriter.envText e)
           /\ s' = typed)
       \/ ((S (Typewriter.index e) < String.length (Typewriter.envText e))%nat
           /\ s' = Typewriter.setTimeoutRef
                     (Some (Typewriter.nextTimerId s))
                     (snd (Typewriter.setTimeout k (expectedDelay cfg e')
                             typed))).
Proof.
  intros [Htimers Hlive] Hstep. cbn [Typewriter.step] in Hstep.
  destruct (find _ (Typewriter.timers s)) as [t|] eqn:Hfind; [|discriminate].
  injection Hstep as <-.
  apply find_some in Hfind. destruct Hfind as [Hin Hid].
  apply Nat.eqb_eq in Hid.
  destruct (Htimers t Hin) as (Href & Henv & Hclean).
  rewrite Hclean in Hlive.
  destruct Hlive as (e & Hlast & Hvis & Hidx & Htext & Hpending).
  assert (Hne : Typewriter.timers s <> [])
    by (intros Heq; rewrite Heq in Hin; exact Hin).
  specialize (Hpending Hne).
  assert (Hcleared :
            filter (fun t0 => negb (Typewriter.timerId t0 =? id)%nat)
              (Typewriter.timers s) = []).
  { apply clear_named_timer. intros t' Ht'.
    destruct (Htimers t' Ht') as (Href' & _). congruence. }
  exists e. split; [exact Hlast|]. split; [exact Hne|].
  unfold Typewriter.typeNext, Typewriter.clearTimeout.
  cbn [Typewriter.setTimers Typewriter.envs]. rewrite Henv.
  unfold liveEnv in Hlast. rewrite Hlast, Hcleared. cbv zeta.
  destruct (Nat.leb_spec (String.length (Typewriter.envText e))
              (Typewriter.index e)) as [Hdone|Hmore].
  - left. split; [lia | reflexivity].
  - destruct (Nat.leb_spec (String.length (Typewriter.envText e))
                (S (Typewriter.index e))) as [Hlast'|Hnext].
    + right. left. split; [lia | reflexivity].
    + right. right. split; [exact Hnext|].
      unfold expectedDelay. cbn [Typewriter.index Typewriter.envText
                                   Typewriter.envPunctuationDelay Nat.eqb].
      reflexivity.
Qed.

Lemma liveEnv_after_typing (s : Typewriter.State) (e e' : Typewriter.Env) :
  liveEnv s = Some e ->
  nth_error
    (Typewriter.setNth (List.length (Typewriter.envs s) - 1) e'
       (Typewriter.envs s))
    (List.length
       (Typewriter.setNth (List.length (Typewriter.envs s) - 1) e'
          (Typewriter.envs s)) - 1)
  = Some e'.
Proof.
  intros Hlive. rewrite setNth_length. apply setNth_nth_error.
  apply nth_error_Some. unfold liveEnv in Hlive. congruence.
Qed.

Lemma timerInvariant_mount (cfg : Config) (p : Typewriter.Props) :
  timerInvariant cfg (Typewriter.mount p).
Proof.
  split; [cbn; lia|]. split; [intros t []| discriminate].
Qed.

Lemma timerInvariant_step (cfg : Config) (ev : Typewriter.Event)
  (s s' : Typewriter.State) :
  typingInvariant s ->
  timerInvariant cfg s ->
  Typewriter.step cfg ev s = Some s' ->
  timerInvariant cfg s'.
Proof.
  intros Hinv (Hone & Hdelay & Hsettled) Hstep. destruct ev as [p| |id].
  - injection Hstep as <-. split; [exact Hone|]. split; [exact Hdelay|].
    discriminate.
  - cbn in Hstep. destruct (Typewriter.effectDue s); [|discriminate].
    injection Hstep as <-. unfold Typewriter.runEffect.
    set (s1 := if Typewriter.hasCleanup s then Typewriter.clearPending s else s).
    assert (Hinv1 : typingInvariant s1).
    { unfold s1. destruct (Typewriter.hasCleanup s);
        [now apply typingInvariant_clearPending | exact Hinv]. }
    destruct (clearPending_clears s1 Hinv1) as (Ht & Hr & He & Hp & Hv & Hc & Hd).
    unfold Typewriter.typingEffect.
    destruct (Typewriter.isPlaying (Typewriter.props (Typewriter.clearPending s1)))
      eqn:Hplay.
    + unfold timerInvariant, liveEnv. cbn. rewrite Ht. cbn.
      split; [lia|]. split.
      * intros t [<-|[]]. eexists. split; [apply nth_error_snoc_last|].
        reflexivity.
      * intros _. split; [now rewrite Hplay|]. intros _.
        eexists. split; [apply nth_error_snoc_last | reflexivity].
    + unfold timerInvariant. cbn. rewrite Ht. cbn.
      split; [lia|]. split; [intros t []|].
      intros _. split; [now rewrite Hplay | discriminate].
  - destruct (fire_shape cfg s s' id Hinv Hstep) as (e & Hlive & Hne & Hcases).
    cbv zeta in Hcases.
    destruct Hcases as [[Hlen ->]|[[Hlen ->]|[Hlen ->]]].
    + unfold timerInvariant, liveEnv. cbn.
      split; [lia|]. split; [intros t []| exact Hsettled].
    + unfold timerInvariant, liveEnv. cbn.
      split; [lia|]. split; [intros t []|].
      intros Hdue. destruct (Hsettled Hdue) as [Hclean Hpd].
      split; [exact Hclean|]. intros Hc.
      destruct (Hpd Hc) as (e0 & He0 & Hpd0).
      assert (e0 = e) as -> by congruence.
      eexists. split; [apply (liveEnv_after_typing s e _ Hlive)|]. exact Hpd0.
    + unfold timerInvariant, liveEnv. cbn.
      split; [lia|]. split.
      * intros t [<-|[]]. eexists.
        split; [apply (liveEnv_after_typing s e _ Hlive)|]. reflexivity.
      * intros Hdue. destruct (Hsettled Hdue) as [Hclean Hpd].
        split; [exact Hclean|]. intros Hc.
        destruct (Hpd Hc) as (e0 & He0 & Hpd0).
        assert (e0 = e) as -> by congruence.
        eexists. split; [apply (liveEnv_after_typing s e _ Hlive)|]. exact Hpd0.
Qed.

Lemma invariants_run (cfg : Config) (evs : list Typewriter.Event) :
  forall s s',
    typingInvariant s ->
    timerInvariant cfg s ->
    Typewriter.run cfg evs s = Some s' ->
    typingInvariant s' /\ timerInvariant cfg s'.
Proof.
  induction evs as [|ev evs IH]; intros s s' Hinv Htim Hrun.
  - injection Hrun as <-. now split.
  - cbn [Typewriter.run] in Hrun.
    destruct (Typewriter.step cfg ev s) as [s1|] eqn:Hstep; [|discriminate].
    apply (IH s1 s'); [| |exact Hrun].
    + exact (typingInvariant_step cfg ev s s1 Hinv Hstep).
    + exact (timerInvariant_step cfg ev s s1 Hinv Htim Hstep).
Qed.

Lemma invariants_reachable (cfg : Config) (p : Typewriter.Props)
  (evs : list Typewriter.Event) (s : Typewriter.State) :
  Typewriter.run cfg evs (Typewriter.mount p) = Some s ->
  typingInvariant s /\ timerInvariant cfg s.
Proof.
  apply invariants_run; [apply typingInvariant_mount | apply timerInvariant_mount].
Qed.

(** X14.  However renders, effect runs and timer firings interleave, at
    most one timeout is pending, and it is the one [timeoutRef] names: a
    step of an earlier play cycle can never fire. *)
Theorem typewriter_single_pending_timer :
  forall cfg p evs s,
    Typewriter.run cfg evs (Typewriter.mount p) = Some s ->
    (List.length (Typewriter.timers s) <= 1)%nat
    /\ (forall t, In t (Typewriter.timers s) ->
                  Typewriter.timeoutRef s = Some (Typewriter.timerId t)
                  /\ Typewriter.timerEnv t
                     = (List.length (Typewriter.envs s) - 1)%nat)
    /\ (forall id, Typewriter.timeoutRef s <> Some id ->
                   Typewriter.step cfg (Typewriter.Fire id) s = None).
Proof.
  intros cfg p evs s Hrun.
  destruct (invariants_reachable cfg p evs s Hrun)
    as [[Htimers _] (Hone & _ & _)].
  split; [exact Hone|]. split.
  - intros t Ht. destruct (Htimers t Ht) as (Href & Henv & _). now split.
  - intros id Hid. cbn [Typewriter.step].
    destruct (find _ (Typewriter.timers s)) as [t|] eqn:Hfind; [|reflexivity].
    apply find_some in Hfind. destruct Hfind as [Hin Heq].
    apply Nat.eqb_eq in Heq. destruct (Htimers t Hin) as (Href & _).
    elim Hid. congruence.
Qed.

Lemma typewriter_single_pending_timer_witness :
  let p := {| Typewriter.text := "Hi"; Typewriter.isPlaying := true;
              Typewriter.punctuationDelay := false |} in
  let s := Typewriter.runEffect (Typewriter.render p
             (Typewriter.runEffect (Typewriter.mount p))) in
  Typewriter.run CONFIG
    [Typewriter.RunEffect; Typewriter.Render p; Typewriter.RunEffect]
    (Typewriter.mount p) = Some s
  /\ (List.length (Typewriter.timers s) <= 1)%nat
  /\ Typewriter.step CONFIG (Typewriter.Fire 1) s = None.
Proof.
  intros p s.
  assert (Hrun : Typewriter.run CONFIG
                   [Typewriter.RunEffect; Typewriter.Render p;
                    Typewriter.RunEffect]
                   (Typewriter.mount p) = Some s) by reflexivity.
  pose proof (typewriter_single_pending_timer CONFIG p _ s Hrun)
    as (Hone & _ & Hstale).
  split; [exact Hrun|]. split; [exact Hone|].
  apply Hstale. discriminate.
Defined.

(** X15.  Stopping resets everything: once the effect has run with
    [isPlaying] false, no timeout is pending, no character is visible
    and the rendered string is empty. *)
Theorem typewriter_stop_resets :
  forall cfg p evs s,
    Typewriter.run cfg evs (Typewriter.mount p) = Some s ->
    Typewriter.effectDue s = false ->
    Typewriter.isPlaying (Typewriter.props s) = false ->
    Typewriter.timers s = []
    /\ Typewriter.visibleChars s = 0%nat
    /\ Typewriter.rendered s = EmptyString.
Proof.
  intros cfg p evs s Hrun Hdue Hstop.
  destruct (invariants_reachable cfg p evs s Hrun)
    as [[_ Hlive] (_ & _ & Hsettled)].
  destruct (Hsettled Hdue) as [Hclean _]. rewrite Hstop in Hclean.
  rewrite Hclean in Hlive. destruct Hlive as [Ht Hv].
  split; [exact Ht|]. split; [exact Hv|].
  unfold Typewriter.rendered, JS.slice_to. rewrite Hv.
  destruct (Typewriter.text (Typewriter.props s)); reflexivity.
Qed.

Lemma typewriter_stop_resets_witness :
  let playing := {| Typewriter.text := "Hi"; Typewriter.isPlaying := true;
                    Typewriter.punctuationDelay := false |} in
  let stopped := {| Typewriter.text := "Hi"; Typewriter.isPlaying := false;
                    Typewriter.punctuationDelay := false |} in
  let s := Typewriter.runEffect (Typewriter.render stopped
             (Typewriter.typeNext CONFIG 0
                (Typewriter.clearTimeout 1
                   (Typewriter.runEffect (Typewriter.mount playing))))) in
  Typewriter.run CONFIG
    [Typewriter.RunEffect; Typewriter.Fire 1; Typewriter.Render stopped;
     Typewriter.RunEffect]
    (Typewriter.mount playing) = Some s
  /\ Typewriter.timers s = []
  /\ Typewriter.visibleChars s = 0%nat.
Proof.
  intros playing stopped s.
  assert (Hrun : Typewriter.run CONFIG
                   [Typewriter.RunEffect; Typewriter.Fire 1;
                    Typewriter.Render stopped; Typewriter.RunEffect]
                   (Typewriter.mount playing) = Some s) by reflexivity.
  pose proof (typewriter_stop_resets CONFIG playing _ s Hrun eq_refl eq_refl)
    as (Ht & Hv & _).
  split; [exact Hrun|]. split; [exact Ht | exact Hv].
Defined.

Lemma typedPause_nonneg (cfg : Config) (justTyped : string) :
  0 <= punctPauseLong cfg ->
  0 <= punctPauseShort cfg ->
  0 <= Typewriter.typedPause cfg justTyped.
Proof.
  intros Hl Hs. unfold Typewriter.typedPause.
  destruct (JS.includes ".!?" justTyped); [assumption|].
  destruct (String.eqb justTyped ","); [assumption | lia].
Qed.

(** X16.  The pending step is timed by the character just typed: its
    delay is 80 ms before the first character and otherwise 80 ms plus,
    with punctuation pausing on, the pause of the character revealed
    last.  With non-negative pauses no step comes sooner than 80 ms, and
    once the effect has run without punctuation pausing every step is
    exactly 80 ms. *)
Theorem typewriter_step_delay :
  forall cfg p evs s t,
    0 <= punctPauseLong cfg ->
    0 <= punctPauseShort cfg ->
    Typewriter.run cfg evs (Typewriter.mount p) = Some s ->
    In t (Typewriter.timers s) ->
    (exists e, liveEnv s = Some e
               /\ Typewriter.timerDelay t = expectedDelay cfg e)
    /\ 80 <= Typewriter.timerDelay t
    /\ (Typewriter.effectDue s = false ->
        Typewriter.punctuationDelay (Typewriter.props s) = false ->
        Typewriter.timerDelay t = 80).
Proof.
  intros cfg p evs s t Hl Hs Hrun Hin.
  destruct (invariants_reachable cfg p evs s Hrun)
    as [[Htimers _] (_ & Hdelay & Hsettled)].
  destruct (Hdelay t Hin) as (e & He & Ht).
  split; [now exists e|]. split.
  - rewrite Ht. unfold expectedDelay.
    destruct (Typewriter.index e =? 0)%nat; [lia|].
    destruct (Typewriter.envPunctuationDelay e); [|lia].
    pose proof (typedPause_nonneg cfg
                  (JS.char_at (Typewriter.envText e) (Typewriter.index e - 1))
                  Hl Hs). lia.
  - intros Hdue Hpd. destruct (Hsettled Hdue) as [_ Hlive].
    destruct (Htimers t Hin) as (_ & _ & Hclean).
    destruct (Hlive Hclean) as (e0 & He0 & Hpd0).
    assert (e0 = e) as -> by congruence.
    rewrite Ht. unfold expectedDelay. rewrite Hpd0, Hpd.
    now destruct (Typewriter.index e =? 0)%nat.
Qed.

Lemma typewriter_step_delay_witness :
  let p := {| Typewriter.text := "a,b"; Typewriter.isPlaying := true;
              Typewriter.punctuationDelay := true |} in
  let s := Typewriter.typeNext CONFIG 0
             (Typewriter.clearTimeout 2
                (Typewriter.typeNext CONFIG 0
                   (Typewriter.clearTimeout 1
                      (Typewriter.runEffect (Typewriter.mount p))))) in
  let t := {| Typewriter.timerId := 3; Typewriter.timerDelay := 230;
              Typewriter.timerEnv := 0 |} in
  0 <= punctPauseLong CONFIG
  /\ 0 <= punctPauseShort CONFIG
  /\ Typewriter.run CONFIG
       [Typewriter.RunEffect; Typewriter.Fire 1; Typewriter.Fire 2]
       (Typewriter.mount p) = Some s
  /\ In t (Typewriter.timers s)
  /\ 80 <= Typewriter.timerDelay t.
Proof.
  intros p s t.
  assert (Hl : 0 <= punctPauseLong CONFIG) by (simpl; lia).
  assert (Hs : 0 <= punctPauseShort CONFIG) by (simpl; lia).
  assert (Hrun : Typewriter.run CONFIG
                   [Typewriter.RunEffect; Typewriter.Fire 1; Typewriter.Fire 2]
                   (Typewriter.mount p) = Some s) by (vm_compute; reflexivity).
  assert (Hin : In t (Typewriter.timers s)) by (vm_compute; left; reflexivity).
  split; [exact Hl|]. split; [exact Hs|]. split; [exact Hrun|].
  split; [exact Hin|].
  exact (proj1 (proj2 (typewriter_step_delay CONFIG p _ s t Hl Hs Hrun Hin))).
Defined.

Lemma slice_to_whole (s : string) : JS.slice_to s (String.length s) = s.
Proof.
  unfold JS.slice_to. induction s as [|c s IH]; [reflexivity|].
  cbn [String.length String.substring]. now rewrite IH.
Qed.

(** From a state with one pending step and [S m] characters left, firing
    the steps in the order the host created them types the rest. *)
Lemma typing_runs_to_end (cfg : Config) :
  forall m s e id d,
    liveEnv s = Some e ->
    Typewriter.timers s
    = [{| Typewriter.timerId := id; Typewriter.timerDelay := d;
          Typewriter.timerEnv := (List.length (Typewriter.envs s) - 1)%nat |}] ->
    Typewriter.nextTimerId s = S id ->
    (Typewriter.index e + S m = String.length (Typewriter.envText e))%nat ->
    exists s',
      Typewriter.run cfg (map Typewriter.Fire (seq id (S m))) s = Some s'
      /\ Typewriter.visibleChars s' = String.length (Typewriter.envText e)
      /\ Typewriter.timers s' = []
      /\ Typewriter.props s' = Typewriter.props s
      /\ Typewriter.effectDue s' = Typewriter.effectDue s.
Proof.
  induction m as [|m IH]; intros s e id d Hlive Htimers Hnext Hleft.
  - cbn [seq map Typewriter.run Typewriter.step].
    rewrite Htimers. cbn [find Typewriter.timerId]. rewrite Nat.eqb_refl.
    cbn [Typewriter.timerEnv].
    unfold Typewriter.typeNext, Typewriter.clearTimeout.
    cbn [Typewriter.setTimers Typewriter.envs].
    unfold liveEnv in Hlive. rewrite Hlive.
    destruct (Nat.leb_spec (String.length (Typewriter.envText e))
                (Typewriter.index e)) as [Hdone|_]; [lia|].
    destruct (Nat.leb_spec (String.length (Typewriter.envText e))
                (S (Typewriter.index e))) as [_|Hmore]; [|lia].
    eexists. split; [reflexivity|]. cbn. repeat split; try lia.
    rewrite Htimers. cbn. now rewrite Nat.eqb_refl.
  - change (seq id (S (S m))) with (id :: seq (S id) (S m)).
    cbn [map Typewriter.run Typewriter.step].
    rewrite Htimers. cbn [find Typewriter.timerId]. rewrite Nat.eqb_refl.
    cbn [Typewriter.timerEnv].
    unfold Typewriter.typeNext at 1. unfold Typewriter.clearTimeout at 1.
    cbn [Typewriter.setTimers Typewriter.envs].
    pose proof Hlive as Hlive'. unfold liveEnv in Hlive'. rewrite Hlive'.
    destruct (Nat.leb_spec (String.length (Typewriter.envText e))
                (Typewriter.index e)) as [Hdone|_]; [lia|].
    destruct (Nat.leb_spec (String.length (Typewriter.envText e))
                (S (Typewriter.index e))) as [Hlast|_]; [lia|].
    cbv zeta.
    match goal with
    | |- exists s', Typewriter.run _ _ ?next = Some s' /\ _ =>
        set (s1 := next)
    end.
    set (e' := {| Typewriter.envText := Typewriter.envText e;
                  Typewriter.envPunctuationDelay :=
                    Typewriter.envPunctuationDelay e;
                  Typewriter.index := S (Typewriter.index e) |}).
    assert (Hlive1 : liveEnv s1 = Some e').
    { unfold liveEnv, s1. cbn. apply (liveEnv_after_typing s e e' Hlive). }
    assert (Hnext1 : Typewriter.nextTimerId s1 = S (S id)).
    { unfold s1. cbn. now rewrite Hnext. }
    assert (Htimers1 : exists d1,
               Typewriter.timers s1
               = [{| Typewriter.timerId := S id; Typewriter.timerDelay := d1;
                     Typewriter.timerEnv :=
                       (List.length (Typewriter.envs s1) - 1)%nat |}]).
    { eexists. unfold s1. cbn. rewrite Htimers, Hnext, setNth_length. cbn.
      rewrite Nat.eqb_refl. cbn. reflexivity. }
    destruct Htimers1 as [d1 Htimers1].
    destruct (IH s1 e' (S id) d1 Hlive1 Htimers1 Hnext1)
      as (s' & Hrun & Hv & Ht & Hp & Hd); [cbn; lia|].
    exists s'. split; [exact Hrun|]. split; [exact Hv|]. split; [exact Ht|].
    split; [rewrite Hp | rewrite Hd]; reflexivity.
Qed.

(** X17.  Typing finishes: for a non-empty text, the effect run followed
    by one firing per character (the host's timer ids are 1, 2, ...) shows
    the whole text and leaves no timeout pending. *)
Theorem typewriter_types_whole_text :
  forall cfg text punctDelay,
    text <> EmptyString ->
    exists s,
      Typewriter.run cfg
        (Typewriter.RunEffect
         :: map Typewriter.Fire (seq 1 (String.length text)))
        (Typewriter.mount {| Typewriter.text := text;
                             Typewriter.isPlaying := true;
                             Typewriter.punctuationDelay := punctDelay |})
      = Some s
      /\ Typewriter.visibleChars s = String.length text
      /\ Typewriter.rendered s = text
      /\ Typewriter.timers s = [].
Proof.
  intros cfg text punctDelay Hne.
  set (p := {| Typewriter.text := text; Typewriter.isPlaying := true;
               Typewriter.punctuationDelay := punctDelay |}).
  destruct (String.length text) as [|m] eqn:Hlen;
    [destruct text; [now elim Hne | discriminate]|].
  cbn [Typewriter.run Typewriter.step Typewriter.mount Typewriter.effectDue].
  destruct (typing_runs_to_end cfg m
              (Typewriter.runEffect (Typewriter.mount p))
              {| Typewriter.envText := text;
                 Typewriter.envPunctuationDelay := punctDelay;
                 Typewriter.index := 0 |} 1%nat 80)
    as (s & Hrun & Hv & Ht & Hp & _); try reflexivity.
  { cbn. lia. }
  exists s. split; [exact Hrun|]. cbn in Hv. split; [congruence|].
  split; [|exact Ht].
  unfold Typewriter.rendered. rewrite Hp, Hv. cbn. apply slice_to_whole.
Qed.

Lemma typewriter_types_whole_text_witness :
  "Hi."%string <> EmptyString
  /\ exists s,
      Typewriter.run CONFIG
        [Typewriter.RunEffect; Typewriter.Fire 1; Typewriter.Fire 2;
         Typewriter.Fire 3]
        (Typewriter.mount {| Typewriter.text := "Hi.";
                             Typewriter.isPlaying := true;
                             Typewriter.punctuationDelay := true |})
      = Some s
      /\ Typewriter.visibleChars s = 3%nat
      /\ Typewriter.rendered s = "Hi."%string
      /\ Typewriter.timers s = [].
Proof.
  assert (H : "Hi."%string <> EmptyString) by discriminate.
  split; [exact H|].
  exact (typewriter_types_whole_text CONFIG "Hi." true H).
Defined.

(* ------------------------------------------------------------------ *)
(** ** The crescendo of Soft Fade                                      *)
(* ------------------------------------------------------------------ *)

Lemma setNth_nth_error_other {A : Type} (x : A) (l : list A) :
  forall k j, k <> j ->
              nth_error (Typewriter.setNth k x l) j = nth_error l j.
Proof.
  induction l as [|y l IH]; intros k j Hkj; [reflexivity|].
  destruct k as [|k], j as [|j]; cbn; try reflexivity; try lia.
  apply IH. lia.
Qed.

Lemma fold_setNth (f : nat -> Q) :
  forall m a l,
    (a + m <= List.length l)%nat ->
    List.length (fold_left (fun acc j => Typewriter.setNth j (f j) acc)
                   (seq a m) l) = List.length l
    /\ forall j,
        nth_error (fold_left (fun acc j => Typewriter.setNth j (f j) acc)
                     (seq a m) l) j
        = if (a <=? j)%nat && (j <? a + m)%nat
          then Some (f j) else nth_error l j.
Proof.
  induction m as [|m IH]; intros a l Hlen.
  - cbn [seq fold_left]. split; [reflexivity|]. intros j.
    destruct (Nat.leb_spec a j), (Nat.ltb_spec j (a + 0)); cbn;
      try reflexivity; lia.
  - cbn [seq fold_left].
    destruct (IH (S a) (Typewriter.setNth a (f a) l)) as [Hl Hnth];
      [rewrite setNth_length; lia|].
    rewrite Hl, setNth_length. split; [reflexivity|]. intros j.
    rewrite Hnth.
    destruct (Nat.leb_spec (S a) j), (Nat.ltb_spec j (S a + m)),
      (Nat.leb_spec a j), (Nat.ltb_spec j (a + S m)); cbn;
      try reflexivity; try lia;
      try (apply setNth_nth_error_other; lia);
      try (assert (j = a) as -> by lia; apply setNth_nth_error; lia).
Qed.

Lemma nat_ratio (a b : nat) :
  (0 < b)%nat ->
  (inject_Z (Z.of_nat a) / inject_Z (Z.of_nat b)
   == (Z.of_nat a # Pos.of_nat b))%Q.
Proof.
  intros Hb.
  assert (Hne : ~ (inject_Z (Z.of_nat b) == 0)%Q) by (unfold Qeq; cbn; lia).
  assert (Hq : ((Z.of_nat a # Pos.of_nat b)
                == inject_Z (Z.of_nat a) * / inject_Z (Z.of_nat b))%Q).
  { unfold Qeq, Qmult, Qinv, inject_Z. cbn.
    destruct (Z.of_nat b) as [|q|q] eqn:Hq; try lia.
    cbn. assert (Pos.of_nat b = q) as -> by lia. lia. }
  rewrite Hq. reflexivity.
Qed.

Lemma nat_ratio_range (a b : nat) :
  (1 <= a <= b)%nat ->
  (0 < inject_Z (Z.of_nat a) / inject_Z (Z.of_nat b))%Q
  /\ (inject_Z (Z.of_nat a) / inject_Z (Z.of_nat b) <= 1)%Q
  /\ (a = b -> inject_Z (Z.of_nat a) / inject_Z (Z.of_nat b) == 1)%Q.
Proof.
  intros Hab. rewrite (nat_ratio a b) by lia.
  assert (HP : Z.pos (Pos.of_nat b) = Z.of_nat b) by lia.
  unfold Qlt, Qle, Qeq. cbn [Qnum Qden]. repeat split; try lia.
Qed.

Lemma skipn_cons_inv {A : Type} (l : list A) :
  forall k x rest,
    skipn k l = x :: rest ->
    nth_error l k = Some x /\ skipn (S k) l = rest.
Proof.
  induction l as [|y l IH]; intros k x rest H.
  - destruct k; discriminate.
  - destruct k as [|k]; cbn in H |- *.
    + injection H as -> ->. now split.
    + now apply IH.
Qed.

Lemma crescendo_loop (chars : list string) :
  forall rest k st,
    skipn k chars = rest ->
    (k + List.length rest = List.length chars)%nat ->
    crescendoInvariant chars k st ->
    crescendoInvariant chars (List.length chars)
      (fold_left (SoftFade.crescendoBody (List.length chars))
         (combine (seq k (List.length rest)) rest) st).
Proof.
  induction rest as [|ch rest IH]; intros k [ints gs] Hskip Hlen Hinv.
  - cbn in Hlen |- *. now replace (List.length chars) with k by lia.
  - destruct (skipn_cons_inv chars k ch rest Hskip) as [Hk Hskip'].
    cbn [List.length seq combine fold_left].
    apply (IH (S k)); [exact Hskip' | cbn in Hlen; lia|].
    destruct Hinv as (Hl & Hgs & Hdone & Hopen). cbn [fst snd] in *.
    unfold SoftFade.crescendoBody.
    assert (Hcl : crescendoCloses chars k
                  = JS.includes ".!?" ch || (k =? List.length chars - 1)%nat)
      by (unfold crescendoCloses; now rewrite Hk).
    rewrite <- Hcl. destruct (crescendoCloses chars k) eqn:Hck.
    + unfold SoftFade.fillGroup.
      destruct (fold_setNth
                  (fun j => (inject_Z (Z.of_nat (j - gs + 1))
                             / inject_Z (Z.of_nat (k - gs + 1)))%Q)
                  (k + 1 - gs) gs ints) as [Hl' Hnth];
        [cbn in Hlen; lia|].
      split; [cbn [fst]; now rewrite Hl'|]. split; [cbn; lia|]. split.
      * cbn [fst snd]. intros j Hj. rewrite Hnth.
        destruct (Nat.leb_spec gs j) as [Hge|Hlt];
          destruct (Nat.ltb_spec j (gs + (k + 1 - gs))) as [Hin|Hout];
          cbn [andb]; try lia.
        -- destruct (nat_ratio_range (j - gs + 1) (k - gs + 1))
             as (Hpos & Hle & Hone); [lia|].
           eexists. split; [reflexivity|]. split; [exact Hpos|].
           split; [exact Hle|]. intros Hcj. apply Hone.
           destruct (Nat.eq_dec j k) as [->|Hjk]; [reflexivity|].
           rewrite (Hopen j) in Hcj by lia. discriminate.
        -- apply Hdone. lia.
      * cbn [snd]. intros j Hj. lia.
    + split; [exact Hl|]. split; [cbn; lia|]. split; [exact Hdone|].
      cbn [snd]. intros j Hj.
      destruct (Nat.eq_dec j k) as [->|Hjk]; [exact Hck | apply Hopen; lia].
Qed.

Lemma crescendo_result (chars : list string) :
  List.length (SoftFade.computeCharCrescendo chars) = List.length chars
  /\ forall j ch,
      nth_error chars j = Some ch ->
      exists q,
        nth_error (SoftFade.computeCharCrescendo chars) j = Some q
        /\ (0 < q)%Q /\ (q <= 1)%Q
        /\ (JS.includes ".!?" ch = true \/ j = (List.length chars - 1)%nat ->
            (q == 1)%Q).
Proof.
  unfold SoftFade.computeCharCrescendo.
  assert (Hinit : crescendoInvariant chars 0 (repeat 0%Q (List.length chars), 0%nat)).
  { split; [cbn; apply repeat_length|]. split; [cbn; lia|].
    split; cbn; intros j Hj; lia. }
  pose proof (crescendo_loop chars chars 0%nat _ eq_refl eq_refl Hinit)
    as (Hl & Hgs & Hdone & Hopen).
  split; [exact Hl|]. intros j ch Hj.
  assert (Hjn : (j < List.length chars)%nat)
    by (apply nth_error_Some; congruence).
  set (final := fold_left (SoftFade.crescendoBody (List.length chars))
                  (combine (seq 0 (List.length chars)) chars)
                  (repeat 0%Q (List.length chars), 0%nat)) in *.
  assert (Hall : snd final = List.length chars).
  { destruct (Nat.eq_dec (snd final) (List.length chars)) as [H|H]; [exact H|].
    assert (Hlast : crescendoCloses chars (List.length chars - 1) = false)
      by (apply Hopen; lia).
    unfold crescendoCloses in Hlast.
    destruct (nth_error chars (List.length chars - 1)) as [c|] eqn:Hc.
    - rewrite Nat.eqb_refl, orb_true_r in Hlast. discriminate.
    - apply nth_error_None in Hc. lia. }
  destruct (Hdone j) as (q & Hq & Hpos & Hle & Hone); [lia|].
  exists q. split; [exact Hq|]. split; [exact Hpos|]. split; [exact Hle|].
  intros Hcl. apply Hone. unfold crescendoCloses. rewrite Hj.
  destruct Hcl as [-> | ->]; [reflexivity|].
  rewrite Nat.eqb_refl. apply orb_true_r.
Qed.


(** X18.  The crescendo gives every character an intensity in (0, 1],
    exactly 1 on each sentence mark and on the last character, so the
    peak scale [1 + intensity * 0.4] lies in (1, 1.4]. *)
Theorem crescendo_peaks_at_sentence_ends :
  forall chars j ch,
    nth_error chars j = Some ch ->
    List.length (SoftFade.computeCharCrescendo chars) = List.length chars
    /\ exists q,
        nth_error (SoftFade.computeCharCrescendo chars) j = Some q
        /\ (0 < q)%Q /\ (q <= 1)%Q
        /\ (JS.includes ".!?" ch = true \/ j = (List.length chars - 1)%nat ->
            (q == 1)%Q)
        /\ (1 < SoftFade.peakScale q)%Q
        /\ (SoftFade.peakScale q <= 14 # 10)%Q.
Proof.
  intros chars j ch Hj.
  destruct (crescendo_result chars) as [Hl Hall].
  split; [exact Hl|].
  destruct (Hall j ch Hj) as (q & Hq & Hpos & Hle & Hone).
  exists q. unfold SoftFade.peakScale.
  repeat split; try assumption; lra.
Qed.

Lemma crescendo_peaks_at_sentence_ends_witness :
  nth_error ["H"; "i"; "."; " "; "y"; "o"]%string 2 = Some "."%string
  /\ exists q,
      nth_error (SoftFade.computeCharCrescendo
                   ["H"; "i"; "."; " "; "y"; "o"]%string) 2 = Some q
      /\ (q == 1)%Q.
Proof.
  assert (H : nth_error ["H"; "i"; "."; " "; "y"; "o"]%string 2
              = Some "."%string) by reflexivity.
  split; [exact H|].
  destruct (crescendo_peaks_at_sentence_ends
              ["H"; "i"; "."; " "; "y"; "o"]%string 2 "." H)
    as (_ & q & Hq & _ & _ & Hone & _).
  exists q. split; [exact Hq|]. apply Hone. left. reflexivity.
Defined.

(* ------------------------------------------------------------------ *)
(** ** The showcase: restoring the saved order, toggling a like        *)
(* ------------------------------------------------------------------ *)

Lemma existsb_eqb_In (x : string) (xs : list string) :
  existsb (String.eqb x) xs = true <-> In x xs.
Proof.
  rewrite existsb_exists. split.
  - intros (y & Hy & Heq). apply String.eqb_eq in Heq. now subst.
  - intros Hin. exists x. split; [exact Hin | apply String.eqb_refl].
Qed.

Lemma setHas_setAdd (x y : string) (s : list string) :
  Showcase.setHas x (Showcase.setAdd y s)
  = Showcase.setHas x s || String.eqb x y.
Proof.
  unfold Showcase.setAdd. destruct (Showcase.setHas y s) eqn:Hy.
  - destruct (String.eqb_spec x y) as [->|_];
      [now rewrite Hy | now rewrite orb_false_r].
  - unfold Showcase.setHas. rewrite existsb_app. cbn. now rewrite orb_false_r.
Qed.

Lemma setHas_fold_setAdd (x : string) (xs : list string) :
  forall acc,
    Showcase.setHas x (fold_left (fun s y => Showcase.setAdd y s) xs acc)
    = Showcase.setHas x acc || existsb (String.eqb x) xs.
Proof.
  induction xs as [|y xs IH]; intros acc; cbn [fold_left existsb].
  - now rewrite orb_false_r.
  - now rewrite IH, setHas_setAdd, orb_assoc.
Qed.

Lemma setHas_setOf (x : string) (xs : list string) :
  Showcase.setHas x (Showcase.setOf xs) = existsb (String.eqb x) xs.
Proof. unfold Showcase.setOf. now rewrite setHas_fold_setAdd. Qed.

Lemma fold_setAdd_fresh (xs : list string) :
  forall acc,
    NoDup (acc ++ xs) ->
    fold_left (fun s y => Showcase.setAdd y s) xs acc = acc ++ xs.
Proof.
  induction xs as [|y xs IH]; intros acc Hnd; cbn [fold_left].
  - now rewrite app_nil_r.
  - assert (Hy : Showcase.setHas y acc = false).
    { destruct (Showcase.setHas y acc) eqn:H; [|reflexivity].
      apply existsb_eqb_In in H. apply NoDup_remove_2 in Hnd.
      elim Hnd. apply in_or_app. now left. }
    replace (Showcase.setAdd y acc) with (acc ++ [y])
      by (unfold Showcase.setAdd; now rewrite Hy).
    rewrite IH; rewrite <- app_assoc; [reflexivity | exact Hnd].
Qed.

Lemma setOf_set (xs : list string) : NoDup xs -> Showcase.setOf xs = xs.
Proof. intros Hnd. exact (fold_setAdd_fresh xs [] Hnd). Qed.

Lemma mapSet_fresh {V : Type} (k : string) (v : V) (m : list (string * V)) :
  ~ In k (map fst m) -> Showcase.mapSet k v m = m ++ [(k, v)].
Proof.
  induction m as [|[k' v'] m IH]; intros Hk; [reflexivity|].
  cbn [Showcase.mapSet]. destruct (String.eqb_spec k' k) as [->|Hne].
  - elim Hk. now left.
  - cbn. rewrite IH; [reflexivity|]. intros Hin. apply Hk. now right.
Qed.

Lemma mapOf_fresh {V : Type} (pairs : list (string * V)) :
  forall acc,
    NoDup (map fst (acc ++ pairs)) ->
    fold_left (fun m kv => Showcase.mapSet (fst kv) (snd kv) m) pairs acc
    = acc ++ pairs.
Proof.
  induction pairs as [|[k v] pairs IH]; intros acc Hnd; cbn [fold_left].
  - now rewrite app_nil_r.
  - cbn [fst snd]. rewrite mapSet_fresh.
    + rewrite IH; rewrite <- app_assoc; [reflexivity | exact Hnd].
    + rewrite map_app in Hnd. cbn in Hnd. apply NoDup_remove_2 in Hnd.
      intros Hin. apply Hnd. apply in_or_app. now left.
Qed.

Section RegistryFacts.

Variable reg : list Showcase.AnimationEntry.
Hypothesis reg_ids_distinct : NoDup (map Showcase.id reg).

Lemma byId_is_registry :
  Showcase.mapOf (map (fun a => (Showcase.id a, a)) reg)
  = map (fun a => (Showcase.id a, a)) reg.
Proof.
  unfold Showcase.mapOf. rewrite mapOf_fresh; [reflexivity|].
  cbn [app]. now rewrite map_map.
Qed.

Lemma mapGet_found (l : list Showcase.AnimationEntry) (k : string)
  (a : Showcase.AnimationEntry) :
  Showcase.mapGet k (map (fun a => (Showcase.id a, a)) l) = Some a ->
  In a l /\ Showcase.id a = k.
Proof.
  induction l as [|b l IH]; cbn; [discriminate|].
  destruct (String.eqb_spec (Showcase.id b) k) as [Heq|Hne].
  - intros [= ->]. split; [now left | exact Heq].
  - intros H. destruct (IH H) as [Hin Hid]. split; [now right | exact Hid].
Qed.

Lemma mapGet_missing (l : list Showcase.AnimationEntry) (k : string) :
  ~ In k (map Showcase.id l) ->
  Showcase.mapGet k (map (fun a => (Showcase.id a, a)) l) = None.
Proof.
  induction l as [|b l IH]; intros Hk; [reflexivity|].
  cbn. destruct (String.eqb_spec (Showcase.id b) k) as [Heq|Hne].
  - elim Hk. now left.
  - apply IH. intros Hin. apply Hk. now right.
Qed.

Lemma mapGet_entry (l : list Showcase.AnimationEntry)
  (a : Showcase.AnimationEntry) :
  NoDup (map Showcase.id l) ->
  In a l ->
  Showcase.mapGet (Showcase.id a) (map (fun a => (Showcase.id a, a)) l)
  = Some a.
Proof.
  induction l as [|b l IH]; intros Hnd Hin; [destruct Hin|].
  cbn in Hnd |- *. inversion Hnd as [|? ? Hb Hrest]; subst.
  destruct Hin as [->|Hin]; [now rewrite String.eqb_refl|].
  destruct (String.eqb_spec (Showcase.id b) (Showcase.id a)) as [Heq|_].
  - elim Hb. rewrite Heq. now apply in_map.
  - now apply IH.
Qed.

Lemma forEach_push (saved : list string) (l : list Showcase.AnimationEntry) :
  forall sorted,
    fold_left
      (fun sorted a =>
         if negb (Showcase.setHas (Showcase.id a) saved)
         then sorted ++ [a] else sorted) l sorted
    = sorted
      ++ filter (fun a => negb (Showcase.setHas (Showcase.id a) saved)) l.
Proof.
  induction l as [|a l IH]; intros sorted; cbn [fold_left filter].
  - now rewrite app_nil_r.
  - rewrite IH.
    destruct (negb (Showcase.setHas (Showcase.id a) saved));
      [now rewrite <- app_assoc | reflexivity].
Qed.

Lemma restoreOrder_parts (ids : list string) :
  Showcase.restoreOrder reg ids
  = Showcase.filterBoolean
      (map (fun i => Showcase.mapGet i (map (fun a => (Showcase.id a, a)) reg))
         ids)
    ++ filter (fun a => negb (existsb (String.eqb (Showcase.id a)) ids)) reg.
Proof.
  unfold Showcase.restoreOrder. rewrite byId_is_registry, forEach_push.
  f_equal. apply filter_ext. intros a. now rewrite setHas_setOf.
Qed.

Lemma lookups_of_saved_entries (l : list Showcase.AnimationEntry) :
  incl l reg ->
  Showcase.filterBoolean
    (map (fun i => Showcase.mapGet i (map (fun a => (Showcase.id a, a)) reg))
       (Showcase.saveOrder l))
  = l.
Proof.
  induction l as [|a l IH]; intros Hincl; [reflexivity|].
  cbn [Showcase.saveOrder map].
  rewrite (mapGet_entry reg a reg_ids_distinct) by (apply Hincl; now left).
  cbn [Showcase.filterBoolean]. f_equal. apply IH.
  intros b Hb. apply Hincl. now right.
Qed.

Lemma known_lookups (ids : list string) :
  map Showcase.id
    (Showcase.filterBoolean
       (map (fun i => Showcase.mapGet i (map (fun a => (Showcase.id a, a)) reg))
          ids))
  = filter (fun k => existsb (String.eqb k) (map Showcase.id reg)) ids.
Proof.
  induction ids as [|k ids IH]; [reflexivity|].
  cbn [map filter].
  destruct (Showcase.mapGet k (map (fun a => (Showcase.id a, a)) reg))
    as [a|] eqn:Hget.
  - destruct (mapGet_found reg k a Hget) as [Hin Hid].
    assert (Hk : existsb (String.eqb k) (map Showcase.id reg) = true).
    { apply existsb_eqb_In. rewrite <- Hid. now apply in_map. }
    rewrite Hk. cbn [Showcase.filterBoolean map]. now rewrite IH, Hid.
  - assert (Hk : existsb (String.eqb k) (map Showcase.id reg) = false).
    { destruct (existsb (String.eqb k) (map Showcase.id reg)) eqn:H;
        [|reflexivity].
      apply existsb_eqb_In in H. apply in_map_iff in H.
      destruct H as (a & Hid & Hin).
      rewrite <- Hid, (mapGet_entry reg a reg_ids_distinct Hin) in Hget.
      discriminate. }
    rewrite Hk. cbn [Showcase.filterBoolean]. exact IH.
Qed.

End RegistryFacts.

(** X19.  Saving an order and restoring it gives the order back.  For a
    list [l] of registry entries, [restoreOrder] of the ids [saveOrder]
    writes is [l] followed by the registry entries [l] lacks, in registry
    order; when [l] holds every entry, it is [l] itself. *)
Theorem saved_order_round_trip :
  forall reg l,
    NoDup (map Showcase.id reg) ->
    incl l reg ->
    Showcase.restoreOrder reg (Showcase.saveOrder l)
    = l ++ filter
             (fun a => negb (existsb (String.eqb (Showcase.id a))
                               (map Showcase.id l))) reg
    /\ (incl reg l ->
        Showcase.restoreOrder reg (Showcase.saveOrder l) = l).
Proof.
  intros reg l Hnd Hincl.
  assert (Hparts : Showcase.restoreOrder reg (Showcase.saveOrder l)
                   = l ++ filter
                            (fun a => negb (existsb (String.eqb (Showcase.id a))
                                              (map Showcase.id l))) reg).
  { rewrite (restoreOrder_parts reg Hnd).
    now rewrite (lookups_of_saved_entries reg Hnd l Hincl). }
  split; [exact Hparts|].
  intros Hall. rewrite Hparts.
  assert (Hnone : filter
                    (fun a => negb (existsb (String.eqb (Showcase.id a))
                                      (map Showcase.id l))) reg = []).
  { clear Hparts Hnd Hincl. induction reg as [|a reg' IH]; [reflexivity|].
    cbn [filter].
    assert (Ha : existsb (String.eqb (Showcase.id a)) (map Showcase.id l)
                 = true).
    { apply existsb_eqb_In. apply in_map. apply Hall. now left. }
    rewrite Ha. cbn [negb]. apply IH. intros b Hb. apply Hall. now right. }
  rewrite Hnone. apply app_nil_r.
Qed.

Lemma saved_order_round_trip_witness :
  NoDup (map Showcase.id Showcase.ANIMATIONS)
  /\ incl (rev Showcase.ANIMATIONS) Showcase.ANIMATIONS
  /\ Showcase.restoreOrder Showcase.ANIMATIONS
       (Showcase.saveOrder (rev Showcase.ANIMATIONS))
     = rev Showcase.ANIMATIONS.
Proof.
  assert (Hnd : NoDup (map Showcase.id Showcase.ANIMATIONS)).
  { assert (H : nodup string_dec (map Showcase.id Showcase.ANIMATIONS)
                = map Showcase.id Showcase.ANIMATIONS) by reflexivity.
    rewrite <- H. apply NoDup_nodup. }
  assert (Hin : incl (rev Showcase.ANIMATIONS) Showcase.ANIMATIONS)
    by (intros a Ha; now apply in_rev).
  assert (Hall : incl Showcase.ANIMATIONS (rev Showcase.ANIMATIONS))
    by (intros a Ha; now apply in_rev in Ha).
  split; [exact Hnd|]. split; [exact Hin|].
  exact (proj2 (saved_order_round_trip Showcase.ANIMATIONS
                  (rev Showcase.ANIMATIONS) Hnd Hin) Hall).
Defined.

Lemma filterBoolean_In {A : Type} (a : A) (l : list (option A)) :
  In a (Showcase.filterBoolean l) <-> In (Some a) l.
Proof.
  induction l as [|[b|] l IH]; cbn; [tauto| |].
  - rewrite IH. split; intros [H|H]; auto; left; congruence.
  - rewrite IH. split; [auto | intros [H|H]; [discriminate | exact H]].
Qed.

Lemma map_filter_id (f : string -> bool) (l : list Showcase.AnimationEntry) :
  map Showcase.id (filter (fun a => f (Showcase.id a)) l)
  = filter f (map Showcase.id l).
Proof.
  induction l as [|a l IH]; [reflexivity|].
  cbn [filter map]. destruct (f (Showcase.id a)); cbn [map]; now rewrite IH.
Qed.

(** X20.  Restoring never loses or invents an animation.  The restored
    ids are the saved ids the registry knows, in saved order, followed by
    the registry ids that were not saved; when no id is saved twice the
    restored list is a permutation of the registry. *)
Theorem restored_order_is_complete :
  forall reg ids,
    NoDup (map Showcase.id reg) ->
    map Showcase.id (Showcase.restoreOrder reg ids)
    = filter (fun k => existsb (String.eqb k) (map Showcase.id reg)) ids
      ++ filter (fun k => negb (existsb (String.eqb k) ids))
           (map Showcase.id reg)
    /\ (NoDup ids -> Permutation (Showcase.restoreOrder reg ids) reg).
Proof.
  intros reg ids Hnd.
  assert (Hids : map Showcase.id (Showcase.restoreOrder reg ids)
                 = filter (fun k => existsb (String.eqb k) (map Showcase.id reg))
                     ids
                   ++ filter (fun k => negb (existsb (String.eqb k) ids))
                        (map Showcase.id reg)).
  { rewrite (restoreOrder_parts reg Hnd), map_app.
    rewrite (known_lookups reg Hnd). f_equal.
    exact (map_filter_id (fun k => negb (existsb (String.eqb k) ids)) reg). }
  split; [exact Hids|].
  intros Hsaved. apply NoDup_Permutation.
  - apply (NoDup_map_inv Showcase.id). rewrite Hids.
    apply NoDup_app; [now apply NoDup_filter | now apply NoDup_filter|].
    intros k Hk Hk'. apply filter_In in Hk. apply filter_In in Hk'.
    destruct Hk as [Hin _], Hk' as [_ Hout].
    apply negb_true_iff in Hout.
    apply existsb_eqb_In in Hin. congruence.
  - now apply (NoDup_map_inv Showcase.id).
  - intros a. rewrite (restoreOrder_parts reg Hnd), in_app_iff. split.
    + intros [Ha|Ha].
      * apply filterBoolean_In in Ha. apply in_map_iff in Ha.
        destruct Ha as (k & Hget & _).
        now destruct (mapGet_found reg k a Hget).
      * apply filter_In in Ha. now destruct Ha.
    + intros Ha.
      destruct (existsb (String.eqb (Showcase.id a)) ids) eqn:Hsav.
      * left. apply filterBoolean_In. apply in_map_iff.
        exists (Showcase.id a). split; [now apply mapGet_entry|].
        now apply existsb_eqb_In.
      * right. apply filter_In. split; [exact Ha | now rewrite Hsav].
Qed.

Lemma restored_order_is_complete_witness :
  NoDup (map Showcase.id Showcase.ANIMATIONS)
  /\ NoDup ["typewriter"; "retired-preset"; "soft-fade"]%string
  /\ Permutation
       (Showcase.restoreOrder Showcase.ANIMATIONS
          ["typewriter"; "retired-preset"; "soft-fade"]%string)
       Showcase.ANIMATIONS.
Proof.
  assert (Hnd : NoDup (map Showcase.id Showcase.ANIMATIONS)).
  { assert (H : nodup string_dec (map Showcase.id Showcase.ANIMATIONS)
                = map Showcase.id Showcase.ANIMATIONS) by reflexivity.
    rewrite <- H. apply NoDup_nodup. }
  assert (Hids : NoDup ["typewriter"; "retired-preset"; "soft-fade"]%string).
  { assert (H : nodup string_dec
                  ["typewriter"; "retired-preset"; "soft-fade"]%string
                = ["typewriter"; "retired-preset"; "soft-fade"]%string)
      by reflexivity.
    rewrite <- H. apply NoDup_nodup. }
  split; [exact Hnd|]. split; [exact Hids|].
  exact (proj2 (restored_order_is_complete Showcase.ANIMATIONS _ Hnd) Hids).
Defined.

Lemma setHas_setDelete (x y : string) (s : list string) :
  Showcase.setHas x (Showcase.setDelete y s)
  = Showcase.setHas x s && negb (String.eqb y x).
Proof.
  unfold Showcase.setHas, Showcase.setDelete.
  induction s as [|z s IH]; [reflexivity|].
  cbn [filter existsb].
  destruct (String.eqb_spec y z) as [->|Hyz]; cbn [negb existsb].
  - rewrite IH. destruct (String.eqb_spec x z) as [->|Hxz].
    + rewrite String.eqb_refl. cbn. now rewrite andb_false_r.
    + reflexivity.
  - rewrite IH. destruct (String.eqb_spec x z) as [->|Hxz]; [|reflexivity].
    destruct (String.eqb_spec y z) as [->|_]; [now elim Hyz | reflexivity].
Qed.

Lemma setDelete_length (x : string) (s : list string) :
  NoDup s ->
  Showcase.setHas x s = true ->
  S (List.length (Showcase.setDelete x s)) = List.length s.
Proof.
  unfold Showcase.setHas, Showcase.setDelete.
  induction 1 as [|z s Hz Hnd IH]; [discriminate|].
  cbn [existsb filter List.length].
  destruct (String.eqb_spec x z) as [->|Hxz]; cbn [negb orb].
  - intros _. f_equal.
    assert (Hsame : filter (fun y => negb (String.eqb z y)) s = s).
    { clear IH Hnd. induction s as [|w s IHs]; [reflexivity|].
      cbn [filter].
      destruct (String.eqb_spec z w) as [->|_]; [elim Hz; now left|].
      cbn [negb]. f_equal. apply IHs. intros Hin. apply Hz. now right. }
    now rewrite Hsame.
  - intros Hx. cbn [List.length]. f_equal. now apply IH.
Qed.

(** X21.  Pressing the heart toggles exactly that like: afterwards the id
    is liked if and only if it was not before, every other id is as it
    was, the set has no duplicates, and the count of likes has moved by
    one. *)
Theorem toggle_like_flips_one :
  forall x likes,
    NoDup likes ->
    let next := Showcase.toggleLike x likes in
    NoDup next
    /\ Showcase.setHas x next = negb (Showcase.setHas x likes)
    /\ (forall y, y <> x -> Showcase.setHas y next = Showcase.setHas y likes)
    /\ List.length next
       = (if Showcase.setHas x likes
          then List.length likes - 1 else List.length likes + 1)%nat.
Proof.
  intros x likes Hnd next. unfold next, Showcase.toggleLike.
  rewrite (setOf_set likes Hnd).
  destruct (Showcase.setHas x likes) eqn:Hx.
  - split; [now apply NoDup_filter|]. split; [|split].
    + rewrite setHas_setDelete, String.eqb_refl. cbn. apply andb_false_r.
    + intros y Hy. rewrite setHas_setDelete.
      destruct (String.eqb_spec x y) as [->|_]; [now elim Hy|].
      apply andb_true_r.
    + pose proof (setDelete_length x likes Hnd Hx). lia.
  - assert (Hadd : Showcase.setAdd x likes = likes ++ [x])
      by (unfold Showcase.setAdd; now rewrite Hx).
    rewrite Hadd. split; [|split; [|split]].
    + apply NoDup_app; [exact Hnd | repeat constructor; intros []|].
      intros a Ha [<-|[]].
      apply existsb_eqb_In in Ha. unfold Showcase.setHas in Hx. congruence.
    + unfold Showcase.setHas in *. rewrite existsb_app, Hx. cbn.
      now rewrite String.eqb_refl.
    + intros y Hy. unfold Showcase.setHas. rewrite existsb_app. cbn.
      destruct (String.eqb_spec y x) as [->|_]; [now elim Hy|].
      now rewrite !orb_false_r.
    + rewrite length_app. reflexivity.
Qed.

Lemma toggle_like_flips_one_witness :
  NoDup ["shimmer"; "typewriter"]%string
  /\ Showcase.setHas "typewriter"
       (Showcase.toggleLike "typewriter" ["shimmer"; "typewriter"]%string)
     = false
  /\ Showcase.setHas "shimmer"
       (Showcase.toggleLike "typewriter" ["shimmer"; "typewriter"]%string)
     = true.
Proof.
  assert (Hnd : NoDup ["shimmer"; "typewriter"]%string).
  { assert (H : nodup string_dec ["shimmer"; "typewriter"]%string
                = ["shimmer"; "typewriter"]%string) by reflexivity.
    rewrite <- H. apply NoDup_nodup. }
  split; [exact Hnd|].
  pose proof (toggle_like_flips_one "typewriter"
                ["shimmer"; "typewriter"]%string Hnd) as (_ & Hx & Hy & _).
  split; [exact Hx|].
  apply Hy. discriminate.
Defined.

Lemma slice_to_length (s : string) :
  forall n, String.length (JS.slice_to s n) = Nat.min n (String.length s).
Proof.
  unfold JS.slice_to. induction s as [|c s IH]; intros n.
  - destruct n; reflexivity.
  - destruct n as [|n]; [reflexivity|].
    cbn [String.substring String.length Nat.min]. now rewrite IH.
Qed.

Lemma slice_to_short (s : string) :
  forall n, (String.length s <= n)%nat -> JS.slice_to s n = s.
Proof.
  unfold JS.slice_to. induction s as [|c s IH]; intros n Hn.
  - destruct n; reflexivity.
  - destruct n as [|n]; [cbn in Hn; lia|].
    cbn [String.substring]. f_equal. apply IH. cbn in Hn. lia.
Qed.

(** X22.  What the showcase hands to a preset: typed text is cut to its
    first 26 units (and kept as it is when it has at most 26), an empty
    custom text falls back to the entry's default, and for the shipped
    registry the text shown is never the empty string. *)
Theorem showcase_text_is_never_empty :
  forall typed entry,
    In entry Showcase.ANIMATIONS ->
    let customText := Showcase.onChangeText typed in
    (String.length customText <= Showcase.MAX_CHARS)%nat
    /\ String.prefix customText typed = true
    /\ ((String.length typed <= Showcase.MAX_CHARS)%nat -> customText = typed)
    /\ Showcase.shownText customText entry <> EmptyString
    /\ (typed = EmptyString ->
        Showcase.shownText customText entry = Showcase.defaultText entry)
    /\ (typed <> EmptyString ->
        Showcase.shownText customText entry = customText).
Proof.
  intros typed entry Hentry customText.
  assert (Hlen : String.length customText
                 = Nat.min Showcase.MAX_CHARS (String.length typed))
    by apply slice_to_length.
  assert (Hdefault : Showcase.defaultText entry <> EmptyString).
  { unfold Showcase.ANIMATIONS in Hentry. cbn [In] in Hentry.
    repeat (destruct Hentry as [<-|Hentry]; [discriminate|]).
    destruct Hentry. }
  split; [rewrite Hlen; apply Nat.le_min_l|].
  split; [apply slice_to_prefix|].
  split; [intros Hshort; now apply slice_to_short|].
  unfold Showcase.shownText.
  destruct (Nat.eqb_spec (String.length customText) 0) as [Hz|Hnz].
  - split; [exact Hdefault|]. split; [reflexivity|].
    intros Hne. exfalso. rewrite Hlen in Hz. unfold Showcase.MAX_CHARS in Hz.
    destruct typed; [now elim Hne | cbn in Hz; lia].
  - split; [intros Heq; rewrite Heq in Hnz; now elim Hnz|].
    split; [|reflexivity].
    intros ->. now elim Hnz.
Qed.

Lemma showcase_text_is_never_empty_witness :
  In {| Showcase.id := "typewriter"; Showcase.label := "Typewriter";
        Showcase.defaultText := "Every letter has weight";
        Showcase.Component := Showcase.TypewriterPreset |}
     Showcase.ANIMATIONS
  /\ Showcase.shownText (Showcase.onChangeText EmptyString)
       {| Showcase.id := "typewriter"; Showcase.label := "Typewriter";
          Showcase.defaultText := "Every letter has weight";
          Showcase.Component := Showcase.TypewriterPreset |}
     = "Every letter has weight"%string.
Proof.
  assert (H : In {| Showcase.id := "typewriter"; Showcase.label := "Typewriter";
                    Showcase.defaultText := "Every letter has weight";
                    Showcase.Component := Showcase.TypewriterPreset |}
                Showcase.ANIMATIONS)
    by (unfold Showcase.ANIMATIONS; do 11 right; left; reflexivity).
  split; [exact H|].
  exact (proj1 (proj2 (proj2 (proj2 (proj2
           (showcase_text_is_never_empty EmptyString _ H))))) eq_refl).
Defined.

Lemma indexMap_pairs (l : list Showcase.AnimationEntry) :
  forall k acc,
    NoDup (map fst acc ++ map Showcase.id l) ->
    fold_left
      (fun m ia => Showcase.mapSet (Showcase.id (snd ia)) (fst ia) m)
      (combine (seq k (List.length l)) l) acc
    = acc ++ map (fun ia => (Showcase.id (snd ia), fst ia))
               (combine (seq k (List.length l)) l).
Proof.
  induction l as [|a l IH]; intros k acc Hnd.
  - cbn. now rewrite app_nil_r.
  - cbn [List.length seq combine fold_left map fst snd].
    rewrite mapSet_fresh.
    + rewrite IH.
      * now rewrite <- app_assoc.
      * rewrite map_app. cbn [map fst]. rewrite <- app_assoc. exact Hnd.
    + cbn [map] in Hnd. apply NoDup_remove_2 in Hnd.
      intros Hin. apply Hnd. apply in_or_app. now left.
Qed.

Lemma mapGet_position (l : list Showcase.AnimationEntry) :
  forall k i a,
    NoDup (map Showcase.id l) ->
    nth_error l i = Some a ->
    Showcase.mapGet (Showcase.id a)
      (map (fun ia => (Showcase.id (snd ia), fst ia))
         (combine (seq k (List.length l)) l))
    = Some (k + i)%nat.
Proof.
  induction l as [|b l IH]; intros k i a Hnd Hi; [destruct i; discriminate|].
  cbn [List.length seq combine map fst snd Showcase.mapGet].
  cbn [map] in Hnd. inversion Hnd as [|? ? Hb Hrest]; subst.
  destruct i as [|i]; cbn in Hi.
  - injection Hi as ->. rewrite String.eqb_refl. f_equal. lia.
  - destruct (String.eqb_spec (Showcase.id b) (Showcase.id a)) as [Heq|_].
    + elim Hb. rewrite Heq. apply in_map. now apply nth_error_In in Hi.
    + rewrite (IH (S k) i a Hrest Hi). f_equal. lia.
Qed.

Lemma mapGet_absent (l : list Showcase.AnimationEntry) (x : string) :
  forall k,
    ~ In x (map Showcase.id l) ->
    Showcase.mapGet x
      (map (fun ia => (Showcase.id (snd ia), fst ia))
         (combine (seq k (List.length l)) l))
    = None.
Proof.
  induction l as [|b l IH]; intros k Hx; [reflexivity|].
  cbn [List.length seq combine map fst snd Showcase.mapGet].
  destruct (String.eqb_spec (Showcase.id b) x) as [Heq|_].
  - elim Hx. now left.
  - apply IH. intros Hin. apply Hx. now right.
Qed.

(** X23.  Rows are numbered in display order.  When the ordered entries
    have distinct ids, the entry at position [i] of the list shown, with
    the liked-only filter on or off, gets the number [i + 1]; an entry
    that is not shown would get 1. *)
Theorem rows_are_numbered_in_order :
  forall filterLiked likes ordered i item,
    NoDup (map Showcase.id ordered) ->
    let shown := filteredAnimations filterLiked likes ordered in
    (nth_error shown i = Some item -> displayNumber shown item = (i + 1)%nat)
    /\ (~ In (Showcase.id item) (map Showcase.id shown) ->
        displayNumber shown item = 1%nat).
Proof.
  intros filterLiked likes ordered i item Hnd shown.
  assert (Hshown : NoDup (map Showcase.id shown)).
  { unfold shown, filteredAnimations. destruct filterLiked; [|exact Hnd].
    rewrite (map_filter_id (fun k => Showcase.setHas k likes) ordered).
    now apply NoDup_filter. }
  assert (Hmap : indexMap shown
                 = map (fun ia => (Showcase.id (snd ia), fst ia))
                     (combine (seq 0 (List.length shown)) shown)).
  { unfold indexMap. now rewrite (indexMap_pairs shown 0 []). }
  unfold displayNumber. rewrite Hmap. split.
  - intros Hi. now rewrite (mapGet_position shown 0 i item Hshown Hi).
  - intros Hout. now rewrite (mapGet_absent shown (Showcase.id item) 0 Hout).
Qed.

Lemma rows_are_numbered_in_order_witness :
  NoDup (map Showcase.id Showcase.ANIMATIONS)
  /\ nth_error
       (filteredAnimations true ["typewriter"; "slam-in"]%string
          Showcase.ANIMATIONS) 1
     = Some {| Showcase.id := "typewriter"; Showcase.label := "Typewriter";
               Showcase.defaultText := "Every letter has weight";
               Showcase.Component := Showcase.TypewriterPreset |}
  /\ displayNumber
       (filteredAnimations true ["typewriter"; "slam-in"]%string
          Showcase.ANIMATIONS)
       {| Showcase.id := "typewriter"; Showcase.label := "Typewriter";
          Showcase.defaultText := "Every letter has weight";
          Showcase.Component := Showcase.TypewriterPreset |}
     = 2%nat.
Proof.
  assert (Hnd : NoDup (map Showcase.id Showcase.ANIMATIONS)).
  { assert (H : nodup string_dec (map Showcase.id Showcase.ANIMATIONS)
                = map Showcase.id Showcase.ANIMATIONS) by reflexivity.
    rewrite <- H. apply NoDup_nodup. }
  assert (Hi : nth_error
                 (filteredAnimations true ["typewriter"; "slam-in"]%string
                    Showcase.ANIMATIONS) 1
               = Some {| Showcase.id := "typewriter";
                         Showcase.label := "Typewriter";
                         Showcase.defaultText := "Every letter has weight";
                         Showcase.Component := Showcase.TypewriterPreset |})
    by reflexivity.
  split; [exact Hnd|]. split; [exact Hi|].
  exact (proj1 (rows_are_numbered_in_order true
                  ["typewriter"; "slam-in"]%string Showcase.ANIMATIONS 1 _ Hnd)
           Hi).
Defined.
